(** * Affogato: the SQL-safety pipeline

    A shallow embedding of the query validators ([src/api/endpoint/query.py],
    [src/chains/sql_chain.py]), the output cleaner and schema cache of
    [SQLChainManager], and the [DuckDBService] operations
    ([src/services/database_service.py]), with the properties of the
    specification stated and proved over them.

    Conventions of the embedding.
    - A Python [str] is a list of characters whose code points are below 256
      (Latin-1); [lower], [strip], [\s] and [\w] are Python's on that range.
    - An exception is a class together with its message, since every handler
      of the program only formats the exception with [f"{e}"].
    - The regular expressions are terms of a small pattern language, run by a
      backtracking matcher that tries alternatives in the order of Python's
      [re] module (leftmost start, greedy or lazy repetition, first
      alternative first).
    - [time.time()] readings are exact rationals; rounding of floating-point
      subtraction is outside the model.
    - [functools.lru_cache] around [_clean_sql_output] memoises a pure
      function and is transparent. *)

From Stdlib Require Import Ascii String DecimalString.
From Stdlib Require Import List Bool Arith NArith ZArith QArith Lia Lqa.
Import ListNotations.

Close Scope Q_scope.

(* ================================================================== *)
(** ** Characters and strings *)

Definition str := list ascii.

(** String literals of the source, as character lists. *)
Definition lit (s : string) : str := list_ascii_of_string s.

Definition code (c : ascii) : N := N_of_ascii c.

Definition between (lo hi n : N) : bool := ((lo <=? n) && (n <=? hi))%N.

(** [str.isspace] on one character, which is also [\s] of [re] on [str]
    patterns: TAB..CR, FS..US, SPACE, NEL and NBSP. *)
Definition is_space (c : ascii) : bool :=
  let n := code c in
  between 9 13 n || between 28 32 n || (n =? 133)%N || (n =? 160)%N.

(** [\w] of [re] on [str] patterns: alphanumeric (alphabetic, decimal, digit
    or numeric) or the underscore. *)
Definition is_word (c : ascii) : bool :=
  let n := code c in
  between 48 57 n || between 65 90 n || (n =? 95)%N || between 97 122 n
  || (n =? 170)%N || between 178 179 n || (n =? 181)%N || between 185 186 n
  || between 188 190 n || between 192 214 n || between 216 246 n
  || between 248 255 n.

(** [str.lower] on one character. *)
Definition lower_char (c : ascii) : ascii :=
  let n := code c in
  if between 65 90 n || between 192 214 n || between 216 222 n
  then ascii_of_N (n + 32) else c.

(** [str.upper] on one character. Three Latin-1 characters have an upper
    case outside Latin-1 (U+00B5, U+00FF) or of two characters (U+00DF gives
    SS); they are left in place here: neither image is whitespace, and no
    text compared against in this program ([SELECT], [LIMIT]) can match
    across them. *)
Definition upper_char (c : ascii) : ascii :=
  let n := code c in
  if between 97 122 n || between 224 246 n || between 248 254 n
  then ascii_of_N (n - 32) else c.

Definition lower (s : str) : str := map lower_char s.
Definition upper (s : str) : str := map upper_char s.

Fixpoint drop_while (p : ascii -> bool) (s : str) : str :=
  match s with
  | [] => []
  | c :: s' => if p c then drop_while p s' else s
  end.

Definition lstrip (s : str) : str := drop_while is_space s.
Definition rstrip (s : str) : str := rev (drop_while is_space (rev s)).

(** [s.strip()] *)
Definition strip (s : str) : str := rstrip (lstrip s).

(** [s.rstrip(";")] *)
Definition rstrip_char (x : ascii) (s : str) : str :=
  rev (drop_while (Ascii.eqb x) (rev s)).

(** [s.startswith(p)] *)
Fixpoint startswith (p s : str) : bool :=
  match p, s with
  | [], _ => true
  | _ :: _, [] => false
  | a :: p', c :: s' => Ascii.eqb a c && startswith p' s'
  end.

(** [s.endswith(p)] *)
Definition endswith (p s : str) : bool := startswith (rev p) (rev s).

(** [p in s] *)
Fixpoint contains (p s : str) : bool :=
  startswith p s ||
  match s with
  | [] => false
  | _ :: s' => contains p s'
  end.

(** [s.count(p)] for a non-empty [p]: occurrences are counted left to right
    and do not overlap; [skip] is the number of characters of the last
    counted occurrence still to step over. *)
Fixpoint count_from (p : str) (skip : nat) (s : str) : nat :=
  match s with
  | [] => 0
  | _ :: s' =>
      match skip with
      | S k => count_from p k s'
      | O => if startswith p s then S (count_from p (length p - 1) s')
             else count_from p 0 s'
      end
  end.

Definition count (p s : str) : nat := count_from p 0 s.

(** [sep.join(parts)] *)
Fixpoint join (sep : str) (parts : list str) : str :=
  match parts with
  | [] => []
  | [x] => x
  | x :: rest => x ++ sep ++ join sep rest
  end.

(** The first occurrence of [sep]: the text before it and the text after. *)
Fixpoint find_split (sep s : str) : option (str * str) :=
  if startswith sep s then Some ([], skipn (length sep) s)
  else match s with
       | [] => None
       | c :: s' =>
           match find_split sep s' with
           | Some (a, b) => Some (c :: a, b)
           | None => None
           end
       end.

Fixpoint split_fuel (fuel : nat) (sep s : str) : list str :=
  match fuel with
  | O => [s]
  | S n =>
      match find_split sep s with
      | None => [s]
      | Some (a, rest) => a :: split_fuel n sep rest
      end
  end.

(** [s.split(sep)] for a non-empty [sep]: every cut removes at least one
    character, so [length s] cuts are enough. *)
Definition split (sep s : str) : list str := split_fuel (length s) sep s.

(** [str(n)] and [f"{n}"] for an [int]. *)
Definition str_of_int (n : Z) : str := lit (NilZero.string_of_int (Z.to_int n)).

(* ================================================================== *)
(** ** Regular expressions *)

Module Re.

(** What one character of the subject is tested against. *)
Inductive atom : Type :=
| Chr (c : ascii)   (* a literal character *)
| Dot               (* [.] *)
| Spc.              (* [\s] *)

(** The patterns used by the program. Repetition is only ever applied to
    a one-character pattern. *)
Inductive regex : Type :=
| Eps
| Atom (a : atom)
| Bnd                      (* [\b] *)
| Seq (r1 r2 : regex)
| Alt (r1 r2 : regex)
| Star (a : atom)          (* [a*], greedy *)
| StarLazy (a : atom)      (* [a*?] *)
| Group (r : regex).       (* a capturing group *)

Record flags : Type := { ignorecase : bool; dotall : bool }.

Definition no_flags := {| ignorecase := false; dotall := false |}.

Definition atom_ok (f : flags) (a : atom) (c : ascii) : bool :=
  match a with
  | Chr x => if ignorecase f then Ascii.eqb (lower_char x) (lower_char c)
             else Ascii.eqb x c
  | Dot => dotall f || negb (Ascii.eqb c "010")
  | Spc => is_space c
  end.

(** [\b] holds between two positions exactly when one side is a word
    character and the other is not; the ends of the subject count as
    non-word. *)
Definition word_at (o : option ascii) : bool :=
  match o with Some c => is_word c | None => false end.

Definition boundary (prev : option ascii) (s : str) : bool :=
  xorb (word_at prev) (word_at (hd_error s)).

(** A continuation receives the text captured so far by the group, the
    character before the current position and the rest of the subject. *)
Definition cont := option str -> option ascii -> str -> option (option str).

Section Matcher.
Variable f : flags.

Fixpoint star_greedy (a : atom) (g : option str) (k : cont)
         (prev : option ascii) (s : str) : option (option str) :=
  match s with
  | c :: s' =>
      if atom_ok f a c then
        match star_greedy a g k (Some c) s' with
        | Some r => Some r
        | None => k g prev s
        end
      else k g prev s
  | [] => k g prev s
  end.

Fixpoint star_lazy (a : atom) (g : option str) (k : cont)
         (prev : option ascii) (s : str) : option (option str) :=
  match k g prev s with
  | Some r => Some r
  | None =>
      match s with
      | c :: s' => if atom_ok f a c then star_lazy a g k (Some c) s'
                   else None
      | [] => None
      end
  end.

(** [run r g prev s k]: match [r] at the head of [s], then continue with
    [k]; on failure of the continuation, try the next way of matching
    [r], in the order of a backtracking matcher. *)
Fixpoint run (r : regex) (g : option str) (prev : option ascii) (s : str)
         (k : cont) : option (option str) :=
  match r with
  | Eps => k g prev s
  | Atom a =>
      match s with
      | c :: s' => if atom_ok f a c then k g (Some c) s' else None
      | [] => None
      end
  | Bnd => if boundary prev s then k g prev s else None
  | Seq r1 r2 => run r1 g prev s (fun g' p' s' => run r2 g' p' s' k)
  | Alt r1 r2 =>
      match run r1 g prev s k with
      | Some x => Some x
      | None => run r2 g prev s k
      end
  | Star a => star_greedy a g k prev s
  | StarLazy a => star_lazy a g k prev s
  | Group r1 =>
      run r1 g prev s
          (fun _ p' s' => k (Some (firstn (length s - length s') s)) p' s')
  end.

Definition accept : cont := fun g _ _ => Some g.

Fixpoint search_from (r : regex) (prev : option ascii) (s : str)
  : option (option str) :=
  match run r None prev s accept with
  | Some g => Some g
  | None =>
      match s with
      | c :: s' => search_from r (Some c) s'
      | [] => None
      end
  end.
End Matcher.

(** [re.search(r, s, flags)]: [None] when there is no match, otherwise
    the capture of the group of the leftmost match. *)
Definition search (f : flags) (r : regex) (s : str) : option (option str) :=
  search_from f r None s.

(** [bool(re.search(...))] *)
Definition found (f : flags) (r : regex) (s : str) : bool :=
  match search f r s with Some _ => true | None => false end.

(** [m.group(1)] *)
Definition group1 (m : option str) : str :=
  match m with Some g => g | None => [] end.

(** A literal run of characters. *)
Fixpoint Lit (s : str) : regex :=
  match s with
  | [] => Eps
  | c :: s' => Seq (Atom (Chr c)) (Lit s')
  end.

Fixpoint Alts (rs : list regex) : regex :=
  match rs with
  | [] => Eps
  | [r] => r
  | r :: rest => Alt r (Alts rest)
  end.

Definition Plus (a : atom) : regex := Seq (Atom a) (Star a).

Fixpoint Seqs (rs : list regex) : regex :=
  match rs with
  | [] => Eps
  | [r] => r
  | r :: rest => Seq r (Seqs rest)
  end.

End Re.

(* ================================================================== *)
(** ** The two validation policies *)

(** The alternation [(drop|delete|update|insert|alter|create|truncate|exec|execute)]
    of [_validate_sql_query]. *)
Definition mutating_keywords : list str :=
  [lit "drop"; lit "delete"; lit "update"; lit "insert"; lit "alter";
   lit "create"; lit "truncate"; lit "exec"; lit "execute"].

(** The list [dangerous] of [_validate_generated_sql]. *)
Definition dangerous : list str :=
  [lit "drop"; lit "delete"; lit "update"; lit "insert"; lit "alter";
   lit "create"; lit "truncate"].

Definition keyword_alternation : Re.regex :=
  Re.Group (Re.Alts (map Re.Lit mutating_keywords)).

(** [dangerous_patterns] of [_validate_sql_query], in the order of the
    source list. *)
Definition dangerous_patterns : list Re.regex :=
  [ Re.Seqs [Re.Bnd; keyword_alternation; Re.Bnd];
    Re.Seqs [Re.Atom (Re.Chr ";"); Re.Star Re.Spc; keyword_alternation];
    Re.Lit (lit "--");
    Re.Seqs [Re.Lit (lit "/*"); Re.StarLazy Re.Dot; Re.Lit (lit "*/")];
    Re.Seqs [Re.Lit (lit "union"); Re.Plus Re.Spc; Re.Lit (lit "select");
             Re.Star Re.Dot; Re.Lit (lit "--")];
    Re.Seqs [Re.Atom (Re.Chr ";"); Re.Star Re.Spc; Re.Lit (lit "shutdown")] ].

(** [re.IGNORECASE | re.DOTALL] *)
Definition icase_dotall : Re.flags :=
  {| Re.ignorecase := true; Re.dotall := true |}.

(** [_validate_sql_query] of [src/api/endpoint/query.py]. *)
Definition _validate_sql_query (sql : str) : bool :=
  let sql_lower := strip (lower sql) in
  if existsb (fun pattern => Re.found icase_dotall pattern sql_lower)
             dangerous_patterns
  then false
  else if negb (startswith (lit "select") sql_lower) then false
  else if contains (lit "select") (skipn 6 sql_lower) then
    let nested_selects := count (lit "select") sql_lower in
    if 2 <? nested_selects then false else true
  else true.

(** The pattern [r"\b" + word + r"\b"]. *)
Definition whole_word (word : str) : Re.regex :=
  Re.Seqs [Re.Bnd; Re.Lit word; Re.Bnd].

(** [_validate_generated_sql] of [src/chains/sql_chain.py]. *)
Definition _validate_generated_sql (sql : str) : bool :=
  let sql_lower := strip (lower sql) in
  if negb (startswith (lit "select") sql_lower) then false
  else if existsb (fun word => Re.found Re.no_flags (whole_word word) sql_lower)
                  dangerous
  then false
  else true.

(* ================================================================== *)
(** ** Cleaning the generator's output *)

(** [r"```sql\s*(.*?)\s*```"] with [re.DOTALL | re.IGNORECASE]. *)
Definition fence_sql : Re.regex :=
  Re.Seqs [Re.Lit (lit "```sql"); Re.Star Re.Spc; Re.Group (Re.StarLazy Re.Dot);
           Re.Star Re.Spc; Re.Lit (lit "```")].

(** [r"```\s*(.*?)\s*```"] with [re.DOTALL]. *)
Definition fence_any : Re.regex :=
  Re.Seqs [Re.Lit (lit "```"); Re.Star Re.Spc; Re.Group (Re.StarLazy Re.Dot);
           Re.Star Re.Spc; Re.Lit (lit "```")].

Definition dotall_only : Re.flags :=
  {| Re.ignorecase := false; Re.dotall := true |}.

(** The removal of the reasoning block: the text between the first and
    the second closing tag (or up to the end). *)
Definition drop_thinking (result : str) : str :=
  if contains (lit "<think>") result && contains (lit "</think>") result then
    let parts := split (lit "</think>") result in
    if 1 <? length parts then strip (nth 1 parts []) else result
  else result.

(** [SQLChainManager._clean_sql_output]. *)
Definition _clean_sql_output (raw_output : str) : str :=
  let result := drop_thinking (strip raw_output) in
  match Re.search icase_dotall fence_sql result with
  | Some sql_match => strip (Re.group1 sql_match)
  | None =>
      match Re.search dotall_only fence_any result with
      | Some code_match => strip (Re.group1 code_match)
      | None => result
      end
  end.

Definition NL : str := ["010"%char].


(* ================================================================== *)
(** ** Whole-word occurrences *)

(** The character before the position reached after reading [s], when
    [prev] was the character before [s]. *)
Definition prev_of (prev : option ascii) (s : str) : option ascii :=
  fold_left (fun _ c => Some c) s prev.

Definition last_char (s : str) : option ascii := prev_of None s.

(** A keyword-like text: non-empty and made of word characters. *)
Definition wordy (w : str) : Prop := w <> [] /\ forallb is_word w = true.

(** [w] occurs in [s] between two word boundaries. *)
Definition whole_word_in (w s : str) : Prop :=
  exists pre post, s = pre ++ w ++ post
                   /\ Re.word_at (last_char pre) = false
                   /\ Re.word_at (hd_error post) = false.

(** [sql] contains, in any letter case, the keyword [w] as a whole word. *)
Definition occurs_as_word (w sql : str) : Prop :=
  exists pre u post, sql = pre ++ u ++ post /\ lower u = w
                     /\ Re.word_at (last_char pre) = false
                     /\ Re.word_at (hd_error post) = false.

(** The number of positions of [s] at which [w] stands as a whole word;
    [prev] is the character before [s]. *)
Fixpoint keyword_count_from (w : str) (prev : option ascii) (s : str) : nat :=
  (if startswith w s && negb (Re.word_at prev)
      && negb (Re.word_at (hd_error (skipn (length w) s)))
   then 1 else 0)
  + match s with
    | [] => 0
    | c :: s' => keyword_count_from w (Some c) s'
    end.

Definition keyword_count (w s : str) : nat := keyword_count_from w None s.

(** The number of positions of [s] at which [p] starts. *)
Fixpoint occurrences (p s : str) : nat :=
  (if startswith p s then 1 else 0)
  + match s with
    | [] => 0
    | _ :: s' => occurrences p s'
    end.

Definition SELECT_lower : str := lit "select".

(** None of the six patterns of the direct policy matches. *)
Definition no_dangerous_pattern (sql_lower : str) : Prop :=
  existsb (fun pattern => Re.found icase_dotall pattern sql_lower)
          dangerous_patterns = false.

(** [p] occurs in [s]. *)
Definition infix (p s : str) : Prop := exists a b, s = a ++ p ++ b.

(* ================================================================== *)
(** ** Exceptions and results *)

Inductive exn_class : Type := RuntimeError | ValueError | StoreError.

Record exn : Type := { exn_class_of : exn_class; message : str }.

Inductive result (A : Type) : Type :=
| Ok (a : A)
| Raise (e : exn).

Arguments Ok {A} a.
Arguments Raise {A} e.

Definition runtime_error (msg : str) : exn :=
  {| exn_class_of := RuntimeError; message := msg |}.

Definition value_error (msg : str) : exn :=
  {| exn_class_of := ValueError; message := msg |}.

(* ================================================================== *)
(** ** The store and [DuckDBService] *)

Inductive value : Type :=
| VText (s : str)
| VInt (z : Z)
| VNull.

(** A record of a result frame: column name to value, in column order. *)
Definition row := list (str * value).

(** [f"{v}"] *)
Definition format_value (v : value) : str :=
  match v with
  | VText s => s
  | VInt z => str_of_int z
  | VNull => lit "None"
  end.

Fixpoint str_eqb (a b : str) : bool :=
  match a, b with
  | [], [] => true
  | x :: a', y :: b' => Ascii.eqb x y && str_eqb a' b'
  | _, _ => false
  end.

(** [r[name]]; [None] stands for the [KeyError]. *)
Fixpoint get_column (name : str) (r : row) : option value :=
  match r with
  | [] => None
  | (k, v) :: r' => if str_eqb k name then Some v else get_column name r'
  end.

(** An open connection: [conn.execute(statement).fetchdf()] either raises
    or yields the records of the result. The store is read as it stands at
    the time of the operation. *)
Record connection : Type := {
  conn_execute : str -> result (list row)
}.

(** The service: what [duckdb.connect] does for its path, and the default
    row limit [self.max_rows]. *)
Record DuckDBService : Type := {
  connect : result connection;
  max_rows : Z
}.

(** [DuckDBService._get_connection]: open, apply the two settings, and turn
    any failure into a [RuntimeError]. *)
Definition _get_connection (self : DuckDBService) : result connection :=
  let wrap (e : exn) :=
    Raise (runtime_error
             (lit "Failed to initialize DuckDB connection: " ++ message e)) in
  match connect self with
  | Raise e => wrap e
  | Ok conn =>
      match conn_execute conn (lit "SET threads = 1") with
      | Raise e => wrap e
      | Ok _ =>
          match conn_execute conn (lit "SET memory_limit = '512MB'") with
          | Raise e => wrap e
          | Ok _ => Ok conn
          end
      end
  end.

(** [max_rows or self.max_rows] *)
Definition effective_max_rows (self : DuckDBService) (max_rows_arg : option Z) : Z :=
  match max_rows_arg with
  | Some n => if (n =? 0)%Z then max_rows self else n
  | None => max_rows self
  end.

(** The statement text [execute_query] passes to the connection. *)
Definition limited_query (query : str) (max_rows : Z) : str :=
  let query_upper := strip (upper query) in
  if negb (max_rows =? 0)%Z
     && startswith (lit "SELECT") query_upper
     && negb (endswith (lit "LIMIT " ++ str_of_int max_rows) query_upper)
     && negb (contains (lit "LIMIT") query_upper)
  then rstrip_char ";" query ++ lit " LIMIT " ++ str_of_int max_rows
  else query.

(** [DuckDBService.execute_query] *)
Definition execute_query (self : DuckDBService) (query : str)
           (max_rows_arg : option Z) : result (list row) :=
  let max_rows := effective_max_rows self max_rows_arg in
  let attempt :=
    match _get_connection self with
    | Raise e => Raise e
    | Ok conn => conn_execute conn (limited_query query max_rows)
    end in
  match attempt with
  | Ok results => Ok results
  | Raise e =>
      Raise (runtime_error (lit "Failed to execute query: " ++ message e))
  end.

(** [[r[name] for r in frame]]; [None] stands for the [KeyError]. *)
Fixpoint column (name : str) (frame : list row) : option (list value) :=
  match frame with
  | [] => Some []
  | r :: frame' =>
      match get_column name r, column name frame' with
      | Some v, Some vs => Some (v :: vs)
      | _, _ => None
      end
  end.

(** The generator [f"{row['column_name']} ({row['column_type']})"] over the
    rows of a [DESCRIBE] frame. *)
Fixpoint column_entries (columns_df : list row) : option (list str) :=
  match columns_df with
  | [] => Some []
  | r :: rest =>
      match get_column (lit "column_name") r,
            get_column (lit "column_type") r,
            column_entries rest with
      | Some n, Some t, Some es =>
          Some ((format_value n ++ lit " (" ++ format_value t ++ lit ")") :: es)
      | _, _, _ => None
      end
  end.

Definition section_ok (table_name columns_str : str) : str :=
  lit "Table: " ++ table_name ++ NL ++ lit "Columns: " ++ columns_str.

Definition section_error (table_name : str) : str :=
  lit "Table: " ++ table_name ++ NL ++ lit "Columns: [Error retrieving schema]".

(** The body of the loop of [get_table_info] for one table. *)
Definition table_section (conn : connection) (table_name : value) : str :=
  let name := format_value table_name in
  match conn_execute conn (lit "DESCRIBE " ++ name) with
  | Raise _ => section_error name
  | Ok columns_df =>
      match column_entries columns_df with
      | None => section_error name
      | Some entries => section_ok name (join (lit ", ") entries)
      end
  end.

(** [DuckDBService.get_table_info]. Every path returns a string: the outer
    handler turns any failure into the text [Error retrieving schema: ...]. *)
Definition get_table_info (self : DuckDBService) : str :=
  let failed (e : str) := lit "Error retrieving schema: " ++ e in
  match _get_connection self with
  | Raise e => failed (message e)
  | Ok conn =>
      match conn_execute conn (lit "SHOW TABLES") with
      | Raise e => failed (message e)
      | Ok tables_df =>
          match tables_df with
          | [] => lit "No tables found in database."
          | _ :: _ =>
              match column (lit "name") tables_df with
              | None => failed (lit "'name'")
              | Some names =>
                  join (NL ++ NL) (map (table_section conn) names)
              end
          end
      end
  end.

(* ================================================================== *)
(** ** [SQLChainManager] *)

(** The calls that leave the manager. *)
Inductive event : Type :=
| Introspect                          (* [db_service.get_table_info()] *)
| Generate (schema question : str)    (* [chain.invoke(...)] *)
| Execute (sql : str).                (* [db_service.execute_query(...)] *)

Record manager : Type := {
  _cached_schema : option str;
  _schema_cache_time : option Q
}.

(** [SQLChainManager.__init__] *)
Definition new_manager : manager :=
  {| _cached_schema := None; _schema_cache_time := None |}.

Definition _cache_ttl : Q := (300 # 1)%Q.

(** The manager together with the calls made so far. *)
Definition state : Type := manager * list event.

(** A computation that reads and updates the state and may raise. *)
Definition M (A : Type) : Type := state -> result A * state.

Definition ret {A} (a : A) : M A := fun st => (Ok a, st).

Definition raise {A} (e : exn) : M A := fun st => (Raise e, st).

Definition bind {A B} (m : M A) (k : A -> M B) : M B :=
  fun st =>
    match m st with
    | (Ok a, st') => k a st'
    | (Raise e, st') => (Raise e, st')
    end.

(** [try: m  except Exception as e: handler e] *)
Definition try_except {A} (m : M A) (handler : exn -> M A) : M A :=
  fun st =>
    match m st with
    | (Ok a, st') => (Ok a, st')
    | (Raise e, st') => handler e st'
    end.

Definition tell (ev : event) : M unit :=
  fun st => (Ok tt, (fst st, snd st ++ [ev])).

Definition get_manager : M manager := fun st => (Ok (fst st), st).

Definition set_manager (m : manager) : M unit :=
  fun st => (Ok tt, (m, snd st)).

(** An outcome of an outside call, brought into the computation. *)
Definition lift {A} (r : result A) : M A := fun st => (r, st).

Notation "x <- m ;; k" := (bind m (fun x => k))
  (at level 61, m at next level, right associativity).
Notation "m ;;; k" := (bind m (fun _ => k))
  (at level 61, right associativity).

(** What the manager is given: the service's [get_table_info], as the
    attribute it calls, and the generation chain. *)
Record collaborators : Type := {
  svc_get_table_info : result str;
  chain_invoke : str -> str -> result str
}.

(** The real service never raises from [get_table_info]. *)
Definition with_service (db : DuckDBService)
           (invoke : str -> str -> result str) : collaborators :=
  {| svc_get_table_info := Ok (get_table_info db); chain_invoke := invoke |}.

(** The cache test of [_get_schema_info]. *)
Definition needs_refresh (m : manager) (current_time : Q) : bool :=
  match _cached_schema m, _schema_cache_time m with
  | Some _, Some t => negb (Qle_bool (current_time - t) _cache_ttl)
  | _, _ => true
  end.

(** [SQLChainManager._get_schema_info]; [current_time] is the reading of
    [time.time()] at its first line. *)
Definition _get_schema_info (w : collaborators) (current_time : Q) : M str :=
  self <- get_manager ;;
  if needs_refresh self current_time then
    try_except
      (tell Introspect ;;;
       schema <- lift (svc_get_table_info w) ;;
       set_manager {| _cached_schema := Some schema;
                      _schema_cache_time := Some current_time |} ;;;
       ret schema)
      (fun e => raise (runtime_error
                         (lit "Failed to retrieve schema info: " ++ message e)))
  else
    match _cached_schema self with
    | Some schema => ret schema
    | None => ret []
    end.

(** [SQLChainManager.natural_language_to_sql] *)
Definition natural_language_to_sql (w : collaborators) (current_time : Q)
           (question : str) : M str :=
  try_except
    (schema <- _get_schema_info w current_time ;;
     tell (Generate schema question) ;;;
     raw_result <- lift (chain_invoke w schema question) ;;
     let cleaned_sql := _clean_sql_output raw_result in
     if negb (_validate_generated_sql cleaned_sql)
     then raise (value_error (lit "Generated SQL failed validation"))
     else ret cleaned_sql)
    (fun e => raise (runtime_error
                       (lit "Failed to generate SQL query: " ++ message e))).

(** [SQLChainManager.clear_cache] *)
Definition clear_cache : M unit :=
  set_manager {| _cached_schema := None; _schema_cache_time := None |}.

Definition count_events (p : event -> bool) (tr : list event) : nat :=
  length (filter p tr).

Definition is_introspect (ev : event) : bool :=
  match ev with Introspect => true | _ => false end.

Definition is_generate (ev : event) : bool :=
  match ev with Generate _ _ => true | _ => false end.

Definition is_execute (ev : event) : bool :=
  match ev with Execute _ => true | _ => false end.

(* ================================================================== *)
(** ** The fence patterns, read off directly

    What the matcher computes on the two fence patterns, written as plain
    recursive functions; [search_fence] below proves the agreement. *)

Definition BACKTICKS : str := lit "```".

(** [w] stands at the head of [s], each character compared as a literal of
    a pattern under the flags [f]. *)
Fixpoint starts (f : Re.flags) (w s : str) : bool :=
  match w, s with
  | [], _ => true
  | _ :: _, [] => false
  | a :: w', c :: s' => Re.atom_ok f (Re.Chr a) c && starts f w' s'
  end.

(** [\s*```] matches at the head of [s]. *)
Definition fence_close (s : str) : bool :=
  startswith BACKTICKS (drop_while is_space s).

(** The capture of [(.*?)] followed by [\s*```]: the shortest prefix of [s]
    after which the closing fence matches. *)
Fixpoint fence_body (s : str) : option str :=
  if fence_close s then Some []
  else match s with
       | [] => None
       | c :: s' => option_map (cons c) (fence_body s')
       end.

(** A match of [opener \s* (.*?) \s* ```] at the head of [s]. *)
Definition fence_at (f : Re.flags) (opener s : str) : option str :=
  if starts f opener s
  then fence_body (drop_while is_space (skipn (length opener) s))
  else None.

(** The leftmost position with a match. *)
Fixpoint first_fence (f : Re.flags) (opener s : str) : option str :=
  match fence_at f opener s with
  | Some g => Some g
  | None =>
      match s with
      | [] => None
      | _ :: s' => first_fence f opener s'
      end
  end.

Definition fence (opener : str) : Re.regex :=
  Re.Seqs [Re.Lit opener; Re.Star Re.Spc; Re.Group (Re.StarLazy Re.Dot);
           Re.Star Re.Spc; Re.Lit BACKTICKS].

(** The closing part [\s*```] of a fence pattern, and the capture with it. *)
Definition closing : Re.regex := Re.Seq (Re.Star Re.Spc) (Re.Lit BACKTICKS).

Definition capture : Re.regex := Re.Seq (Re.Group (Re.StarLazy Re.Dot)) closing.

(** A continuation that does not look at the previous character and
    fails on a text whenever it fails on that text without a leading
    whitespace character. *)
Definition space_blind (g : option str) (k : Re.cont) : Prop :=
  (forall p p' s, k g p s = k g p' s)
  /\ (forall p c s, is_space c = true -> k g p s = None -> k g p (c :: s) = None).

(** Both reasoning tags occur in [s]: the test of [_clean_sql_output]. *)
Definition has_think_pair (s : str) : bool :=
  contains (lit "<think>") s && contains (lit "</think>") s.

(** [_clean_sql_output] with the two searches read as [first_fence]. *)
Definition clean_by_fences (raw_output : str) : str :=
  let result := drop_thinking (strip raw_output) in
  match first_fence icase_dotall (lit "```sql") result with
  | Some g => strip g
  | None =>
      match first_fence dotall_only BACKTICKS result with
      | Some g => strip g
      | None => result
      end
  end.

(* ================================================================== *)
(** ** The query endpoint (the part that calls the core) *)

Record QueryRequest : Type := {
  question : str;
  use_nlq : bool;
  request_max_rows : option Z
}.

Inductive http_result : Type :=
| QueryResponse (query : str) (results : list row) (row_count : nat)
| HTTPException (status_code : Z) (detail : str).

(** [xs[:n]]: a negative [n] counts from the end. *)
Definition slice_to {A} (n : Z) (xs : list A) : list A :=
  if (0 <=? n)%Z then firstn (Z.to_nat n) xs
  else firstn (length xs - Z.to_nat (- n)) xs.

(** [if payload.max_rows and len(results) > payload.max_rows:
       results = results[:payload.max_rows]] *)
Definition truncate_rows (limit : option Z) (results : list row) : list row :=
  match limit with
  | Some n =>
      if negb (n =? 0)%Z && (n <? Z.of_nat (length results))%Z
      then slice_to n results
      else results
  | None => results
  end.

(** The body of the [/query] handler of [src/api/endpoint/query.py], for
    values of the real services (a [str] from the chain, a [list] from the
    store). *)
Definition query_endpoint (db : DuckDBService)
           (invoke : str -> str -> result str) (current_time : Q)
           (payload : QueryRequest) (st : state) : http_result * state :=
  let failed (e : exn) :=
    HTTPException 500 (lit "Query execution failed: " ++ message e) in
  let run (sql_query : str) (st1 : state) :=
    let st2 := (fst st1, snd st1 ++ [Execute sql_query]) in
    match execute_query db sql_query None with
    | Raise e => (failed e, st2)
    | Ok results =>
        let results := truncate_rows (request_max_rows payload) results in
        (QueryResponse sql_query results (length results), st2)
    end in
  if use_nlq payload then
    match natural_language_to_sql (with_service db invoke) current_time
                                  (question payload) st with
    | (Raise e, st1) => (failed e, st1)
    | (Ok sql_query, st1) => run sql_query st1
    end
  else if negb (_validate_sql_query (question payload)) then
    (HTTPException 400
       (lit "Invalid SQL query. Only safe SELECT statements are allowed for direct queries."),
     st)
  else run (question payload) st.

(* ================================================================== *)
(** ** Example stores *)

(** The frame of [DESCRIBE]: one record per column. *)
Definition describe_frame (cols : list (str * str)) : list row :=
  map (fun nt => [(lit "column_name", VText (fst nt));
                  (lit "column_type", VText (snd nt))]) cols.

(** The frame of [SHOW TABLES]. *)
Definition tables_frame (names : list str) : list row :=
  map (fun n => [(lit "name", VText n)]) names.

Definition column_entry (nt : str * str) : str :=
  fst nt ++ lit " (" ++ snd nt ++ lit ")".

Definition store_error (msg : str) : exn :=
  {| exn_class_of := StoreError; message := msg |}.

Definition numbered_rows (n : nat) : list row :=
  map (fun i => [(lit "id", VInt (Z.of_nat i))]) (seq 0 n).

(** A store with a table [users], a table [orders] whose description
    fails, and a table [t] of 200 rows; a trailing [LIMIT 100] cuts the rows
    of a query to 100. *)
Definition demo_connection : connection :=
  {| conn_execute := fun statement =>
       if str_eqb statement (lit "SHOW TABLES")
       then Ok (tables_frame [lit "users"; lit "orders"; lit "t"])
       else if str_eqb statement (lit "DESCRIBE users")
       then Ok (describe_frame [(lit "id", lit "INTEGER");
                                (lit "name", lit "VARCHAR")])
       else if str_eqb statement (lit "DESCRIBE t")
       then Ok (describe_frame [(lit "id", lit "INTEGER")])
       else if str_eqb statement (lit "DESCRIBE orders")
       then Raise (store_error (lit "Catalog Error"))
       else if str_eqb statement (lit "SELECT * FROM t LIMIT 100")
       then Ok (numbered_rows 100)
       else if str_eqb statement (lit "SELECT * FROM t LIMIT 5")
       then Ok (numbered_rows 5)
       else if startswith (lit "SET ") statement then Ok []
       else Raise (store_error (lit "Parser Error")) |}.

Definition demo_service : DuckDBService :=
  {| connect := Ok demo_connection; max_rows := 100 |}.

(** A reachable store without tables. *)
Definition empty_connection : connection :=
  {| conn_execute := fun _ => Ok [] |}.

Definition empty_service : DuckDBService :=
  {| connect := Ok empty_connection; max_rows := 10000 |}.

(** A store that cannot be opened. *)
Definition unreachable_service : DuckDBService :=
  {| connect := Raise (store_error (lit "Connection failed"));
     max_rows := 10000 |}.

Definition users_schema : str :=
  lit "Table: users" ++ NL ++ lit "Columns: id (INTEGER), name (VARCHAR)".

(** A generator that answers with a fenced statement. *)
Definition fenced_generator (schema question : str) : result str :=
  Ok (lit "```sql" ++ NL ++ lit "SELECT * FROM users;" ++ NL ++ BACKTICKS).

(** A generator that answers with a statement the policy rejects. *)
Definition dropping_generator (schema question : str) : result str :=
  Ok (lit "DROP TABLE users;").


(** The section of a table whose description succeeded with [cols]. *)
Definition described_section (name : str) (cols : list (str * str)) : str :=
  section_ok name (join (lit ", ") (map column_entry cols)).

(* ================================================================== *)
(** ** Request validation and the chat endpoint *)

(** The validator [QueryRequest.validate_question] of
    [src/api/endpoint/query.py]: the function itself, which raises
    [ValueError]; the length bounds of the field declaration are checked
    by the framework and are not part of it. *)
Definition validate_question (v : str) : result str :=
  if match v with [] => true | _ => false end
     || match strip v with [] => true | _ => false end
  then Raise (value_error (lit "Question cannot be empty"))
  else if 1000 <? length (strip v)
  then Raise (value_error (lit "Question too long (max 1000 characters)"))
  else Ok (strip v).

(** The validator [ChatRequest.validate_message] of
    [src/api/endpoint/chat.py]. *)
Definition validate_message (v : str) : result str :=
  if match v with [] => true | _ => false end
     || match strip v with [] => true | _ => false end
  then Raise (value_error (lit "Message cannot be empty"))
  else if 1000 <? length (strip v)
  then Raise (value_error (lit "Message too long (max 1000 characters)"))
  else Ok (strip v).

(** The list [query_keywords] of [_is_query_intent]. *)
Definition query_keywords : list str :=
  [lit "show"; lit "list"; lit "get"; lit "find"; lit "select"; lit "query";
   lit "how many"; lit "what"; lit "who"; lit "where"; lit "when";
   lit "tampilkan"; lit "lihat"; lit "cari"].

(** [_is_query_intent] of [src/api/endpoint/chat.py]. *)
Definition _is_query_intent (message : str) : bool :=
  let message_lower := lower message in
  existsb (fun keyword => contains keyword message_lower) query_keywords.

Record ChatResponse : Type := {
  response : str;
  chat_query : option str;
  chat_results : option (list row);
  chat_row_count : option nat
}.

Inductive chat_result : Type :=
| ChatOk (r : ChatResponse)
| ChatHTTPException (status_code : Z) (detail : str).

(** The reply of the query branch of [chat_endpoint]. *)
Definition found_reply (results : list row) : str :=
  match results with
  | [] => lit "I didn't find any results for that query."
  | _ :: _ => lit "I found " ++ str_of_int (Z.of_nat (length results))
                ++ lit " result(s). Here's what I got:"
  end.

(** The reply of the general branch of [chat_endpoint]. *)
Definition general_reply (message : str) : str :=
  lit "I understand you said: '" ++ message
    ++ lit "'. I'm here to help with database queries. Try asking something like 'Show me all users' or 'How many products do we have?'".

(** The body of the [/chat] handler of [src/api/endpoint/chat.py];
    [user_message] is [payload.message]. The elapsed time of the answer is
    a floating-point reading and is left out. *)
Definition chat_endpoint (db : DuckDBService)
           (invoke : str -> str -> result str) (current_time : Q)
           (user_message : str) (st : state) : chat_result * state :=
  let failed (e : exn) :=
    ChatHTTPException 500 (lit "Chat interaction failed: " ++ message e) in
  if _is_query_intent user_message then
    match natural_language_to_sql (with_service db invoke) current_time
                                  user_message st with
    | (Raise e, st1) => (failed e, st1)
    | (Ok sql_query, st1) =>
        let st2 := (fst st1, snd st1 ++ [Execute sql_query]) in
        match execute_query db sql_query None with
        | Raise e => (failed e, st2)
        | Ok results =>
            (ChatOk {| response := found_reply results;
                       chat_query := Some sql_query;
                       chat_results := Some results;
                       chat_row_count := Some (length results) |}, st2)
        end
    end
  else
    (ChatOk {| response := general_reply user_message;
               chat_query := None;
               chat_results := None;
               chat_row_count := None |}, st).


(** A generator that fails. *)
Definition failing_generator (schema question : str) : result str :=
  Raise (store_error (lit "LLM Error")).

(** Collaborators whose schema lookup raises. *)
Definition raising_collaborators : collaborators :=
  {| svc_get_table_info := Raise (store_error (lit "boom"));
     chain_invoke := fenced_generator |}.

(** No character of [s] is a backtick. *)
Definition no_backtick (s : str) : bool :=
  forallb (fun c => negb (Ascii.eqb "`" c)) s.




(* ================================================================== *)
(** ** Facts about characters *)

Ltac by_all_chars c :=
  destruct c as [[] [] [] [] [] [] [] []]; vm_compute; congruence.

Lemma is_word_lower (c : ascii) : is_word (lower_char c) = is_word c.
Proof. by_all_chars c. Qed.

Lemma is_space_lower (c : ascii) : is_space (lower_char c) = is_space c.
Proof. by_all_chars c. Qed.

Lemma is_space_upper (c : ascii) : is_space (upper_char c) = is_space c.
Proof. by_all_chars c. Qed.

Lemma word_not_space (c : ascii) : is_word c = true -> is_space c = false.
Proof. by_all_chars c. Qed.

Lemma lower_char_idem (c : ascii) : lower_char (lower_char c) = lower_char c.
Proof. by_all_chars c. Qed.

(* ================================================================== *)
(** ** Facts about strings *)


Lemma prev_of_app prev a b : prev_of prev (a ++ b) = prev_of (prev_of prev a) b.
Proof. apply fold_left_app. Qed.

Lemma prev_of_cons prev c s : prev_of prev (c :: s) = prev_of (Some c) s.
Proof. reflexivity. Qed.

Lemma prev_of_nonempty prev prev' s : s <> [] -> prev_of prev s = prev_of prev' s.
Proof. destruct s; [congruence | reflexivity]. Qed.

Lemma prev_of_snoc prev s c : prev_of prev (s ++ [c]) = Some c.
Proof. rewrite prev_of_app. reflexivity. Qed.

Lemma drop_while_app_stop p a c r :
  p c = false -> drop_while p (a ++ c :: r) = drop_while p a ++ c :: r.
Proof.
  intros Hc. induction a as [|x a IH]; simpl.
  - now rewrite Hc.
  - destruct (p x); [exact IH | reflexivity].
Qed.

Lemma drop_while_all p a r :
  forallb p a = true -> drop_while p (a ++ r) = drop_while p r.
Proof.
  induction a as [|x a IH]; simpl; [reflexivity|].
  intros H. apply andb_true_iff in H as [Hx Ha]. rewrite Hx. auto.
Qed.

Lemma drop_while_suffix p s : exists a, s = a ++ drop_while p s /\ forallb p a = true.
Proof.
  induction s as [|c s [a [E Ha]]]; simpl.
  - exists []. auto.
  - destruct (p c) eqn:Hc.
    + exists (c :: a). simpl. rewrite Hc, Ha. split; [now f_equal | reflexivity].
    + exists []. auto.
Qed.

Lemma drop_while_head p s c r : drop_while p s = c :: r -> p c = false.
Proof.
  induction s as [|x s IH]; simpl; [discriminate|].
  destruct (p x) eqn:Hx; [exact IH|]. intros E. now inversion E; subst.
Qed.

Lemma drop_while_fixed p s :
  match s with [] => True | c :: _ => p c = false end -> drop_while p s = s.
Proof. destruct s as [|c s]; simpl; [reflexivity|]. now intros ->. Qed.

Lemma drop_while_idem p s : drop_while p (drop_while p s) = drop_while p s.
Proof.
  apply drop_while_fixed. destruct (drop_while p s) eqn:E; [exact I|].
  eapply drop_while_head; eauto.
Qed.

(** Stripping removes a run of whitespace at each end. *)
Lemma lstrip_decompose s :
  exists a, s = a ++ lstrip s /\ forallb is_space a = true.
Proof. apply drop_while_suffix. Qed.

Lemma rstrip_decompose s :
  exists b, s = rstrip s ++ b /\ forallb is_space b = true.
Proof.
  unfold rstrip. destruct (drop_while_suffix is_space (rev s)) as [a [E Ha]].
  exists (rev a). split.
  - rewrite <- rev_app_distr, <- E. now rewrite rev_involutive.
  - rewrite forallb_forall in *. intros x Hx. apply Ha. now apply in_rev.
Qed.

Lemma strip_decompose s :
  exists a b, s = a ++ strip s ++ b
              /\ forallb is_space a = true /\ forallb is_space b = true.
Proof.
  destruct (lstrip_decompose s) as [a [Ea Ha]].
  destruct (rstrip_decompose (lstrip s)) as [b [Eb Hb]].
  exists a, b. unfold strip. now rewrite <- Eb.
Qed.

Lemma lstrip_app_stop a c r :
  is_space c = false -> lstrip (a ++ c :: r) = lstrip a ++ c :: r.
Proof. apply drop_while_app_stop. Qed.

Lemma rstrip_app_stop a c r :
  is_space c = false -> rstrip (a ++ c :: r) = a ++ c :: rstrip r.
Proof.
  intros Hc. unfold rstrip.
  rewrite rev_app_distr. simpl. rewrite <- app_assoc. simpl.
  rewrite drop_while_app_stop by exact Hc.
  rewrite rev_app_distr. simpl. rewrite rev_involutive.
  now rewrite <- app_assoc.
Qed.

Lemma rstrip_all_space a : forallb is_space a = true -> rstrip a = [].
Proof.
  intros H. unfold rstrip.
  replace (rev a) with (rev a ++ []) by apply app_nil_r.
  rewrite drop_while_all; [reflexivity|].
  rewrite forallb_forall in *. intros x Hx. apply H. now apply in_rev.
Qed.

Lemma lstrip_all_space a r : forallb is_space a = true -> lstrip (a ++ r) = lstrip r.
Proof. apply drop_while_all. Qed.

Lemma rstrip_app_space a b :
  forallb is_space b = true -> rstrip (a ++ b) = rstrip a.
Proof.
  intros H. unfold rstrip. rewrite rev_app_distr.
  rewrite drop_while_all; [reflexivity|].
  rewrite forallb_forall in *. intros x Hx. apply H. now apply in_rev.
Qed.

Lemma rstrip_nil : rstrip [] = [].
Proof. reflexivity. Qed.

(** The last character of a right-stripped text is not whitespace. *)
Lemma rstrip_last s c r : rev (rstrip s) = c :: r -> is_space c = false.
Proof.
  unfold rstrip. rewrite rev_involutive. apply drop_while_head.
Qed.

Lemma rstrip_fixed s :
  match rev s with [] => True | c :: _ => is_space c = false end -> rstrip s = s.
Proof.
  intros H. unfold rstrip. rewrite drop_while_fixed by exact H.
  apply rev_involutive.
Qed.

Lemma rstrip_idem s : rstrip (rstrip s) = rstrip s.
Proof.
  apply rstrip_fixed. destruct (rev (rstrip s)) eqn:E; [exact I|].
  eapply rstrip_last; eauto.
Qed.

(** Right-stripping keeps the first character in place. *)
Lemma rstrip_head s c r : rstrip s = c :: r -> exists r', s = c :: r'.
Proof.
  intros E. destruct (rstrip_decompose s) as [b [Eb _]].
  rewrite E in Eb. simpl in Eb. eauto.
Qed.

Lemma lstrip_rstrip_fixed s : lstrip s = s -> lstrip (rstrip s) = rstrip s.
Proof.
  intros H. apply drop_while_fixed.
  destruct (rstrip s) as [|c r] eqn:E; [exact I|].
  destruct (rstrip_head _ _ _ E) as [r' ->].
  unfold lstrip in H. simpl in H.
  destruct (is_space c) eqn:Hc; [|reflexivity].
  exfalso. destruct (drop_while_suffix is_space r') as [a [Ea _]].
  rewrite H in Ea. apply (f_equal (@length _)) in Ea.
  rewrite length_app in Ea. simpl in Ea. lia.
Qed.

Lemma strip_idem s : strip (strip s) = strip s.
Proof.
  unfold strip.
  rewrite lstrip_rstrip_fixed by apply drop_while_idem.
  apply rstrip_idem.
Qed.

(* ================================================================== *)
(** ** Facts about the matcher *)

Module ReFacts.
Import Re.

Lemma atom_chr_refl f c : atom_ok f (Chr c) c = true.
Proof. unfold atom_ok. destruct (ignorecase f); apply Ascii.eqb_refl. Qed.

(** A literal consumes itself. *)
Lemma run_Lit f w g prev rest k :
  run f (Lit w) g prev (w ++ rest) k = k g (prev_of prev w) rest.
Proof.
  revert prev. induction w as [|c w IH]; intros prev; [reflexivity|].
  cbn [Lit run app]. rewrite atom_chr_refl. apply IH.
Qed.

(** An alternation succeeds as soon as one branch does. *)
Lemma run_Alts_some f r rs g prev s k :
  In r rs -> run f r g prev s k <> None ->
  run f (Alts rs) g prev s k <> None.
Proof.
  induction rs as [|r0 rs IH]; intros Hin Hr; [contradiction|].
  destruct rs as [|r1 rs'].
  - destruct Hin as [->|[]]. exact Hr.
  - change (Alts (r0 :: r1 :: rs')) with (Alt r0 (Alts (r1 :: rs'))).
    simpl run. destruct (run f r0 g prev s k) eqn:E0; [discriminate|].
    destruct Hin as [->|Hin]; [congruence|]. now apply IH.
Qed.

(** A match at some position makes the search succeed. *)
Lemma search_from_skip f r pre prev rest :
  run f r None (prev_of prev pre) rest accept <> None ->
  search_from f r prev (pre ++ rest) <> None.
Proof.
  revert prev. induction pre as [|c pre IH]; intros prev H.
  - simpl in *. destruct rest; simpl;
      destruct (run f r None prev _ accept); congruence.
  - simpl. destruct (run f r None prev (c :: pre ++ rest) accept);
      [discriminate|]. apply IH. exact H.
Qed.

Lemma found_at f r pre rest :
  run f r None (last_char pre) rest accept <> None ->
  found f r (pre ++ rest) = true.
Proof.
  intros H. unfold found, search.
  destruct (search_from f r None (pre ++ rest)) eqn:E; [reflexivity|].
  exfalso. revert E. now apply search_from_skip.
Qed.

(** When the search succeeds, a match starts at some position. *)
Lemma search_from_some f r prev s m :
  search_from f r prev s = Some m ->
  exists pre rest, s = pre ++ rest
                   /\ run f r None (prev_of prev pre) rest accept = Some m.
Proof.
  revert prev. induction s as [|c s IH]; intros prev; simpl.
  - destruct (run f r None prev [] accept) eqn:E; [|discriminate].
    intros [= <-]. exists [], []. auto.
  - destruct (run f r None prev (c :: s) accept) eqn:E.
    + intros [= <-]. exists [], (c :: s). auto.
    + intros H. destruct (IH _ H) as [pre [rest [-> Hr]]].
      exists (c :: pre), rest. auto.
Qed.

End ReFacts.

(* ================================================================== *)
(** ** Whole-word occurrences: facts *)

Lemma wordy_last w prev : wordy w -> Re.word_at (prev_of prev w) = true.
Proof.
  intros [Hne Hall].
  destruct (rev w) as [|d r] eqn:E.
  - apply (f_equal (@rev _)) in E. rewrite rev_involutive in E. now subst.
  - apply (f_equal (@rev _)) in E. rewrite rev_involutive in E. simpl in E.
    subst w. rewrite prev_of_snoc. simpl.
    rewrite forallb_app in Hall. apply andb_true_iff in Hall as [_ Hd].
    simpl in Hd. now rewrite andb_true_r in Hd.
Qed.

Lemma wordy_head w rest : wordy w -> Re.word_at (hd_error (w ++ rest)) = true.
Proof.
  intros [Hne Hall]. destruct w as [|c w]; [congruence|]. simpl in *.
  now apply andb_true_iff in Hall as [Hc _].
Qed.

Lemma word_at_last_lower s :
  Re.word_at (last_char (lower s)) = Re.word_at (last_char s).
Proof.
  unfold last_char. destruct (rev s) as [|d r] eqn:E.
  - apply (f_equal (@rev _)) in E. rewrite rev_involutive in E. now subst.
  - apply (f_equal (@rev _)) in E. rewrite rev_involutive in E. simpl in E.
    subst s. unfold lower. rewrite map_app. simpl. rewrite !prev_of_snoc.
    simpl. apply is_word_lower.
Qed.

Lemma word_at_hd_lower s :
  Re.word_at (hd_error (lower s)) = Re.word_at (hd_error s).
Proof. destruct s; simpl; [reflexivity | apply is_word_lower]. Qed.

(** Lower-casing keeps a whole-word occurrence. *)
Lemma occurs_lower w sql : occurs_as_word w sql -> whole_word_in w (lower sql).
Proof.
  intros [pre [u [post [-> [Hu [Hb Ha]]]]]].
  exists (lower pre), (lower post). unfold lower in *.
  rewrite !map_app, Hu. repeat split.
  - now rewrite word_at_last_lower.
  - now rewrite word_at_hd_lower.
Qed.

Lemma last_char_lstrip s :
  Re.word_at (last_char s) = false -> Re.word_at (last_char (lstrip s)) = false.
Proof.
  intros H. destruct (lstrip_decompose s) as [a [E _]].
  destruct (lstrip s) as [|c r] eqn:El; [reflexivity|].
  rewrite E in H. unfold last_char in *. rewrite prev_of_app in H.
  now rewrite (prev_of_nonempty _ None) in H by discriminate.
Qed.

Lemma hd_rstrip s :
  Re.word_at (hd_error s) = false -> Re.word_at (hd_error (rstrip s)) = false.
Proof.
  intros H. destruct (rstrip s) as [|c r] eqn:E; [reflexivity|].
  destruct (rstrip_head _ _ _ E) as [r' ->]. exact H.
Qed.

(** Stripping keeps a whole-word occurrence of a keyword-like text. *)
Lemma whole_word_strip w s : wordy w -> whole_word_in w s -> whole_word_in w (strip s).
Proof.
  intros Hw [pre [post [-> [Hb Ha]]]].
  assert (Hlast := wordy_last _ None Hw).
  destruct Hw as [Hne Hall].
  destruct w as [|c w]; [congruence|].
  assert (Hc : is_space c = false).
  { simpl in Hall. apply andb_true_iff in Hall as [Hc _].
    now apply word_not_space. }
  destruct (rev (c :: w)) as [|d r] eqn:E.
  { apply (f_equal (@length _)) in E. rewrite length_rev in E. discriminate. }
  apply (f_equal (@rev _)) in E. rewrite rev_involutive in E. simpl in E.
  assert (Hd : is_space d = false).
  { rewrite E, prev_of_snoc in Hlast. now apply word_not_space. }
  exists (lstrip pre), (rstrip post). repeat split.
  - unfold strip. simpl app. rewrite lstrip_app_stop by exact Hc.
    change (c :: w ++ post) with ((c :: w) ++ post). rewrite E.
    rewrite <- !app_assoc. simpl.
    rewrite (app_assoc (lstrip pre) (rev r) (d :: post)).
    rewrite rstrip_app_stop by exact Hd.
    change (c :: w ++ rstrip post) with ((c :: w) ++ rstrip post). rewrite E.
    now rewrite <- !app_assoc.
  - now apply last_char_lstrip.
  - now apply hd_rstrip.
Qed.

Lemma mutating_keywords_wordy w : In w mutating_keywords -> wordy w.
Proof.
  intros H. repeat (destruct H as [<-|H]; [split; [discriminate|reflexivity]|]).
  contradiction.
Qed.

Lemma dangerous_sub w : In w dangerous -> In w mutating_keywords.
Proof.
  intros H. unfold mutating_keywords.
  repeat (destruct H as [<-|H]; [simpl; tauto|]). contradiction.
Qed.

(** The first pattern of the direct policy finds every whole-word
    occurrence of one of its nine keywords. *)
Lemma keyword_pattern_found w s :
  In w mutating_keywords -> whole_word_in w s ->
  Re.found icase_dotall
    (Re.Seqs [Re.Bnd; keyword_alternation; Re.Bnd]) s = true.
Proof.
  intros Hin [pre [post [-> [Hb Ha]]]].
  assert (Hw := mutating_keywords_wordy _ Hin).
  apply ReFacts.found_at.
  change (Re.Seqs [Re.Bnd; keyword_alternation; Re.Bnd])
    with (Re.Seq Re.Bnd (Re.Seq keyword_alternation Re.Bnd)).
  cbn [Re.run].
  unfold Re.boundary at 1. rewrite Hb, (wordy_head _ post Hw). simpl xorb. cbv iota.
  unfold keyword_alternation. cbn [Re.run].
  apply ReFacts.run_Alts_some with (r := Re.Lit w).
  - now apply in_map.
  - rewrite ReFacts.run_Lit. unfold Re.boundary.
    rewrite (wordy_last _ _ Hw), Ha. simpl. discriminate.
Qed.

(** The word pattern of the generated policy finds every whole-word
    occurrence of its word. *)
Lemma whole_word_found w s :
  wordy w -> whole_word_in w s ->
  Re.found Re.no_flags (whole_word w) s = true.
Proof.
  intros Hw [pre [post [-> [Hb Ha]]]].
  apply ReFacts.found_at.
  change (whole_word w) with (Re.Seq Re.Bnd (Re.Seq (Re.Lit w) Re.Bnd)).
  cbn [Re.run].
  unfold Re.boundary at 1. rewrite Hb, (wordy_head _ post Hw). simpl xorb. cbv iota.
  rewrite ReFacts.run_Lit. unfold Re.boundary.
  rewrite (wordy_last _ _ Hw), Ha. simpl. discriminate.
Qed.

Lemma direct_rejects_keyword w sql :
  In w mutating_keywords -> occurs_as_word w sql -> _validate_sql_query sql = false.
Proof.
  intros Hin Hocc. unfold _validate_sql_query.
  assert (H : whole_word_in w (strip (lower sql))).
  { apply whole_word_strip; [now apply mutating_keywords_wordy|].
    now apply occurs_lower. }
  unfold dangerous_patterns. cbv beta zeta. cbn [existsb].
  now rewrite (keyword_pattern_found _ _ Hin H).
Qed.

Lemma generated_rejects_dangerous w sql :
  In w dangerous -> occurs_as_word w sql -> _validate_generated_sql sql = false.
Proof.
  intros Hin Hocc. unfold _validate_generated_sql. cbv zeta.
  assert (Hw : wordy w) by now apply mutating_keywords_wordy, dangerous_sub.
  assert (H : whole_word_in w (strip (lower sql))).
  { apply whole_word_strip; [exact Hw|]. now apply occurs_lower. }
  destruct (negb (startswith (lit "select") (strip (lower sql)))); [reflexivity|].
  replace (existsb _ dangerous) with true; [reflexivity|].
  symmetry. apply existsb_exists. exists w. split; [exact Hin|].
  now apply whole_word_found.
Qed.

(* ================================================================== *)
(** ** Occurrences and counting *)

Lemma startswith_iff p s : startswith p s = true <-> exists r, s = p ++ r.
Proof.
  revert s. induction p as [|a p IH]; intros s; simpl.
  - split; [intros _; now exists s | reflexivity].
  - destruct s as [|c s].
    + split; [discriminate | intros [r Hr]; discriminate].
    + rewrite andb_true_iff, Ascii.eqb_eq, IH. split.
      * intros [-> [r ->]]. now exists r.
      * intros [r Hr]. inversion Hr; subst. eauto.
Qed.

Lemma startswith_app p r : startswith p (p ++ r) = true.
Proof. apply startswith_iff. now exists r. Qed.

Lemma contains_iff p s : contains p s = true <-> infix p s.
Proof.
  induction s as [|c s IH].
  - simpl. rewrite orb_false_r, startswith_iff. split.
    + intros [r Hr]. now exists [], r.
    + intros [a [b E]]. destruct a; [|discriminate]. simpl in E. now exists b.
  - cbn [contains]. rewrite orb_true_iff, IH, startswith_iff. split.
    + intros [[r ->]|[a [b ->]]]; [now exists [], r | now exists (c :: a), b].
    + intros [[|x a] [b E]].
      * left. now exists b.
      * right. inversion E; subst. now exists a, b.
Qed.

Lemma infix_trans p s t : infix p s -> infix s t -> infix p t.
Proof.
  intros [a [b ->]] [a' [b' ->]]. exists (a' ++ a), (b ++ b').
  now rewrite <- !app_assoc.
Qed.

Lemma contains_mono p s t : infix s t -> contains p t = false -> contains p s = false.
Proof.
  intros Hst Ht. destruct (contains p s) eqn:E; [|reflexivity].
  apply contains_iff in E. rewrite <- Ht. symmetry. apply contains_iff.
  eapply infix_trans; eauto.
Qed.

Lemma strip_infix s : infix (strip s) s.
Proof. destruct (strip_decompose s) as [a [b [E _]]]. now exists a, b. Qed.

Lemma occurrences_zero p s : contains p s = false -> occurrences p s = 0.
Proof.
  induction s as [|c s IH]; cbn [contains occurrences]; intros H;
    apply orb_false_iff in H as [H1 H2]; rewrite H1; auto.
Qed.

Lemma keyword_count_le_occurrences w prev s :
  keyword_count_from w prev s <= occurrences w s.
Proof.
  revert prev. induction s as [|c s IH]; intros prev;
    cbn [keyword_count_from occurrences].
  - destruct (startswith w []); simpl; [|lia].
    destruct (negb _ && negb _); lia.
  - specialize (IH (Some c)).
    destruct (startswith w (c :: s)); simpl andb.
    + destruct (negb _ && negb _); lia.
    + cbv iota. lia.
Qed.

(** Two occurrences of [select] cannot overlap. *)
Lemma select_no_overlap s j :
  startswith SELECT_lower s = true -> j < 5 ->
  startswith SELECT_lower (skipn (S j) s) = false.
Proof.
  intros H Hj. apply startswith_iff in H as [r ->].
  destruct j as [|[|[|[|[|j]]]]]; try lia; reflexivity.
Qed.

(** Hence [count], which steps over each occurrence it counts, counts all
    of them. *)
Lemma count_from_occurrences s skip :
  skip <= 5 ->
  (forall j, j < skip -> startswith SELECT_lower (skipn j s) = false) ->
  count_from SELECT_lower skip s = occurrences SELECT_lower s.
Proof.
  revert skip. induction s as [|c s IH]; intros skip Hle H; [reflexivity|].
  destruct skip as [|k]; cbn [count_from occurrences].
  - destruct (startswith SELECT_lower (c :: s)) eqn:E.
    + change (length SELECT_lower - 1) with 5. rewrite IH; [reflexivity|lia|].
      intros j Hj. now apply (select_no_overlap (c :: s) j).
    + rewrite IH; [reflexivity|lia|]. intros j Hj. lia.
  - assert (H0 := H 0 ltac:(lia)). cbn [skipn] in H0. rewrite H0.
    rewrite IH; [reflexivity|lia|].
    intros j Hj. apply (H (S j)). lia.
Qed.

Lemma count_select s : count SELECT_lower s = occurrences SELECT_lower s.
Proof. apply count_from_occurrences; [lia|]. intros j Hj. lia. Qed.

Lemma keyword_count_le_count s :
  keyword_count SELECT_lower s <= count SELECT_lower s.
Proof. rewrite count_select. apply keyword_count_le_occurrences. Qed.

(** A text that starts with [select] and has no further [select] after
    its first six characters contains it once. *)
Lemma count_select_once t :
  startswith SELECT_lower t = true ->
  contains SELECT_lower (skipn 6 t) = false ->
  count SELECT_lower t = 1.
Proof.
  intros H Hc. rewrite count_select.
  apply startswith_iff in H as [r ->].
  change (skipn 6 (SELECT_lower ++ r)) with r in Hc.
  apply occurrences_zero in Hc.
  change (occurrences SELECT_lower (SELECT_lower ++ r))
    with (S (occurrences SELECT_lower r)).
  now rewrite Hc.
Qed.

(* ================================================================== *)
(** ** The matcher on the fence patterns *)

Module FenceFacts.
Import Re.

Lemma space_not_backtick f c :
  is_space c = true -> atom_ok f (Chr "`") c = false.
Proof. destruct f as [[] []]; by_all_chars c. Qed.

Lemma startswith_backticks_space c s :
  is_space c = true -> startswith BACKTICKS (c :: s) = false.
Proof.
  intros H. change (startswith BACKTICKS (c :: s))
    with (Ascii.eqb "`" c && startswith (lit "``") s).
  destruct (Ascii.eqb_spec "`"%char c) as [<-|]; [discriminate|reflexivity].
Qed.

Lemma starts_plain f w s :
  ignorecase f = false -> starts f w s = startswith w s.
Proof.
  intros Hf. revert s. induction w as [|a w IH]; intros [|c s]; simpl; auto.
  now rewrite Hf, IH.
Qed.

(** A literal either stands at the head of the subject or fails. *)
Lemma run_Lit_starts f w g prev s k :
  run f (Lit w) g prev s k =
  if starts f w s
  then k g (prev_of prev (firstn (length w) s)) (skipn (length w) s)
  else None.
Proof.
  revert prev s. induction w as [|a w IH]; intros prev s; [reflexivity|].
  destruct s as [|c s]; [reflexivity|]. cbn [Lit run starts].
  destruct (atom_ok f (Chr a) c); [|reflexivity]. apply IH.
Qed.

Lemma space_blind_drop g k p s :
  space_blind g k -> k g p (drop_while is_space s) = None -> k g p s = None.
Proof.
  intros [_ Hk]. induction s as [|c s IH]; simpl; [auto|].
  destruct (is_space c) eqn:Hc; auto.
Qed.

(** Greedy whitespace before such a continuation takes all of it. *)
Lemma star_greedy_spaces f g k p s :
  space_blind g k ->
  star_greedy f Spc g k p s = k g p (drop_while is_space s).
Proof.
  intros Hk. revert p. induction s as [|c s IH]; intros p; [reflexivity|].
  cbn [star_greedy drop_while atom_ok].
  destruct (is_space c) eqn:Hc; [|reflexivity].
  rewrite IH. destruct Hk as [Hp Hn].
  rewrite (Hp (Some c) p).
  destruct (k g p (drop_while is_space s)) eqn:E; [reflexivity|].
  apply Hn; [exact Hc|].
  apply space_blind_drop; [now split | exact E].
Qed.

Lemma backtick_ok f c : atom_ok f (Chr "`") c = Ascii.eqb "`" c.
Proof. destruct f as [[] []]; by_all_chars c. Qed.

Lemma starts_backticks f s : starts f BACKTICKS s = startswith BACKTICKS s.
Proof.
  change BACKTICKS with ["`"; "`"; "`"]%char.
  destruct s as [|a [|b [|c s]]]; cbn [starts startswith];
    now rewrite ?backtick_ok.
Qed.

Lemma run_backticks f g p s :
  run f (Lit BACKTICKS) g p s accept =
  if startswith BACKTICKS s then Some g else None.
Proof. rewrite run_Lit_starts, starts_backticks. reflexivity. Qed.

Lemma run_closing f g p s :
  run f closing g p s accept = if fence_close s then Some g else None.
Proof.
  unfold closing. cbn [run]. rewrite star_greedy_spaces.
  - apply run_backticks.
  - split.
    + intros. now rewrite !run_backticks.
    + intros p0 c s0 Hc _. rewrite run_backticks.
      now rewrite startswith_backticks_space.
Qed.

Lemma firstn_prefix (u s : str) : firstn (length (u ++ s) - length s) (u ++ s) = u.
Proof.
  rewrite length_app. replace (length u + length s - length s) with (length u) by lia.
  rewrite firstn_app, Nat.sub_diag, firstn_all. simpl. apply app_nil_r.
Qed.

(** The lazy capture followed by the closing fence. *)
Lemma star_lazy_body f u s p g :
  dotall f = true ->
  star_lazy f Dot g
    (fun _ p' s' =>
       run f closing (Some (firstn (length (u ++ s) - length s') (u ++ s)))
           p' s' accept) p s
  = option_map (fun b => Some (u ++ b)) (fence_body s).
Proof.
  intros Hf. revert u p. induction s as [|c s IH]; intros u p.
  - cbn [star_lazy fence_body]. rewrite run_closing.
    change (fence_close []) with false. reflexivity.
  - cbn [star_lazy fence_body]. rewrite run_closing.
    destruct (fence_close (c :: s)).
    + rewrite firstn_prefix. simpl. now rewrite app_nil_r.
    + cbn [atom_ok]. rewrite Hf. cbn [orb].
      specialize (IH (u ++ [c]) (Some c)).
      rewrite <- app_assoc in IH. cbn [app] in IH. rewrite IH.
      destruct (fence_body s); simpl; [|reflexivity].
      now rewrite <- app_assoc.
Qed.

Lemma run_capture f g p s :
  dotall f = true ->
  run f capture g p s accept = option_map Some (fence_body s).
Proof.
  intros Hf. exact (star_lazy_body f [] s p g Hf).
Qed.

Lemma contains_backticks_spaces c s :
  is_space c = true -> contains BACKTICKS (c :: s) = contains BACKTICKS s.
Proof.
  intros H. cbn [contains]. now rewrite startswith_backticks_space.
Qed.

Lemma fence_close_space c s :
  is_space c = true -> fence_close (c :: s) = fence_close s.
Proof. intros H. unfold fence_close. simpl. now rewrite H. Qed.

Lemma fence_body_none_close s : fence_body s = None -> fence_close s = false.
Proof.
  destruct s as [|x s]; cbn [fence_body];
    destruct (fence_close _); [discriminate|reflexivity|discriminate|reflexivity].
Qed.

Lemma fence_body_space_none c s :
  is_space c = true -> fence_body s = None -> fence_body (c :: s) = None.
Proof.
  intros Hc H. cbn [fence_body]. rewrite fence_close_space by exact Hc.
  rewrite (fence_body_none_close s H), H. reflexivity.
Qed.

Lemma capture_space_blind f g :
  dotall f = true -> space_blind g (fun g' p' s' => run f capture g' p' s' accept).
Proof.
  intros Hf. split.
  - intros. now rewrite !run_capture.
  - intros p c s Hc. rewrite !run_capture by exact Hf.
    destruct (fence_body s) eqn:E; [discriminate|]. intros _.
    now rewrite fence_body_space_none.
Qed.

(** The whole pattern at one position. *)
Lemma run_fence f opener prev s :
  dotall f = true ->
  run f (fence opener) None prev s accept
  = option_map Some (fence_at f opener s).
Proof.
  intros Hf. unfold fence, fence_at.
  change (Seqs [Lit opener; Star Spc; Group (StarLazy Dot); Star Spc; Lit BACKTICKS])
    with (Seq (Lit opener) (Seq (Star Spc) capture)).
  cbn [run]. rewrite run_Lit_starts.
  destruct (starts f opener s); [|reflexivity].
  rewrite star_greedy_spaces by now apply capture_space_blind.
  now apply run_capture.
Qed.

Lemma search_from_fence f opener prev s :
  dotall f = true ->
  search_from f (fence opener) prev s
  = option_map Some (first_fence f opener s).
Proof.
  intros Hf. revert prev. induction s as [|c s IH]; intros prev;
    cbn [search_from first_fence]; rewrite run_fence by exact Hf.
  - destruct (fence_at f opener []); reflexivity.
  - destruct (fence_at f opener (c :: s)); [reflexivity|]. apply IH.
Qed.

(** [re.search] on a fence pattern is the leftmost fence. *)
Lemma search_fence f opener s :
  dotall f = true ->
  search f (fence opener) s = option_map Some (first_fence f opener s).
Proof. intros Hf. now apply search_from_fence. Qed.

End FenceFacts.

(* ================================================================== *)
(** ** Cleaning: structure of the result *)

Lemma clean_by_fences_eq raw : _clean_sql_output raw = clean_by_fences raw.
Proof.
  unfold _clean_sql_output, clean_by_fences. cbv zeta.
  change fence_sql with (fence (lit "```sql")).
  change fence_any with (fence BACKTICKS).
  rewrite !FenceFacts.search_fence by reflexivity.
  destruct (first_fence icase_dotall _ _); [reflexivity|].
  destruct (first_fence dotall_only _ _); reflexivity.
Qed.

Lemma fence_close_contains s : fence_close s = true -> contains BACKTICKS s = true.
Proof.
  unfold fence_close. intros H. apply contains_iff.
  apply startswith_iff in H as [r Hr].
  destruct (drop_while_suffix is_space s) as [a [E _]].
  exists a, r. now rewrite <- Hr.
Qed.

Lemma fence_body_none s : contains BACKTICKS s = false -> fence_body s = None.
Proof.
  induction s as [|c s IH]; intros H; cbn [fence_body].
  - destruct (fence_close []) eqn:E; [|reflexivity].
    apply fence_close_contains in E. congruence.
  - destruct (fence_close (c :: s)) eqn:E.
    + apply fence_close_contains in E. congruence.
    + rewrite IH; [reflexivity|].
      cbn [contains] in H. now apply orb_false_iff in H as [_ H].
Qed.

(** The capture is a prefix of the text and holds no fence. *)
Lemma fence_body_some s g :
  fence_body s = Some g ->
  (exists rest, s = g ++ rest) /\ contains BACKTICKS g = false.
Proof.
  revert g. induction s as [|c s IH]; intros g; cbn [fence_body].
  - destruct (fence_close []); [|discriminate].
    intros [= <-]. split; [now exists [] | reflexivity].
  - destruct (fence_close (c :: s)) eqn:E.
    + intros [= <-]. split; [now exists (c :: s) | reflexivity].
    + destruct (fence_body s) as [g'|] eqn:B; [|discriminate].
      intros [= <-]. destruct (IH g' eq_refl) as [[rest Hr] Hg].
      split; [exists rest; now rewrite Hr|].
      cbn [contains]. rewrite Hg, orb_false_r.
      destruct (startswith BACKTICKS (c :: g')) eqn:S; [|reflexivity].
      exfalso. apply startswith_iff in S as [r Sr].
      assert (Hc : fence_close (c :: s) = true).
      { unfold fence_close. rewrite Hr.
        change (c :: g' ++ rest) with ((c :: g') ++ rest). rewrite Sr.
        reflexivity. }
      congruence.
Qed.

Lemma skipn_infix n (s : str) : infix (skipn n s) s.
Proof. exists (firstn n s), []. now rewrite app_nil_r, firstn_skipn. Qed.

Lemma drop_while_infix p s : infix (drop_while p s) s.
Proof.
  destruct (drop_while_suffix p s) as [a [E _]]. exists a, [].
  now rewrite app_nil_r.
Qed.

Lemma prefix_infix (g rest : str) : infix g (g ++ rest).
Proof. now exists [], rest. Qed.

Lemma fence_at_some f opener s g :
  fence_at f opener s = Some g -> infix g s /\ contains BACKTICKS g = false.
Proof.
  unfold fence_at. destruct (starts f opener s); [|discriminate].
  intros H. apply fence_body_some in H as [[rest Hr] Hg]. split; [|exact Hg].
  eapply infix_trans; [|apply skipn_infix].
  eapply infix_trans; [|apply drop_while_infix].
  rewrite Hr. apply prefix_infix.
Qed.

Lemma tail_infix c (s : str) : infix s (c :: s).
Proof. now exists [c], []; rewrite app_nil_r. Qed.

Lemma first_fence_some f opener s g :
  first_fence f opener s = Some g -> infix g s /\ contains BACKTICKS g = false.
Proof.
  induction s as [|c s IH]; cbn [first_fence].
  - destruct (fence_at f opener []) eqn:E; [|discriminate].
    intros [= <-]. now apply fence_at_some in E.
  - destruct (fence_at f opener (c :: s)) eqn:E.
    + intros [= <-]. now apply fence_at_some in E.
    + intros H. destruct (IH H) as [Hi Hg]. split; [|exact Hg].
      eapply infix_trans; [exact Hi | apply tail_infix].
Qed.

Lemma fence_at_none f opener s :
  contains BACKTICKS s = false -> fence_at f opener s = None.
Proof.
  intros H. unfold fence_at. destruct (starts f opener s); [|reflexivity].
  apply fence_body_none. eapply contains_mono; [|exact H].
  eapply infix_trans; [apply drop_while_infix | apply skipn_infix].
Qed.

(** Without a fence in the text there is no match. *)
Lemma first_fence_none f opener s :
  contains BACKTICKS s = false -> first_fence f opener s = None.
Proof.
  induction s as [|c s IH]; intros H; cbn [first_fence];
    rewrite fence_at_none by exact H; [reflexivity|].
  apply IH. cbn [contains] in H. now apply orb_false_iff in H as [_ H].
Qed.

(** *** The reasoning block *)

Lemma find_split_none sep s : find_split sep s = None -> contains sep s = false.
Proof.
  induction s as [|c s IH]; cbn [find_split contains].
  - destruct (startswith sep []); [discriminate|reflexivity].
  - destruct (startswith sep (c :: s)); [discriminate|].
    destruct (find_split sep s) as [[a b]|]; [discriminate|]. auto.
Qed.

Lemma find_split_some sep s a b :
  sep <> [] -> find_split sep s = Some (a, b) ->
  s = a ++ sep ++ b /\ contains sep a = false.
Proof.
  intros Hsep. revert a. induction s as [|c s IH]; intros a; cbn [find_split].
  - destruct (startswith sep []) eqn:E; [|discriminate].
    destruct sep; [congruence | discriminate].
  - destruct (startswith sep (c :: s)) eqn:E.
    + intros [= <- <-]. apply startswith_iff in E as [r Hr]. split.
      * rewrite Hr. simpl. f_equal.
        rewrite skipn_app, skipn_all, Nat.sub_diag. reflexivity.
      * destruct sep; [congruence | reflexivity].
    + destruct (find_split sep s) as [[a' b']|] eqn:F; [|discriminate].
      intros [= <- <-]. destruct (IH a' eq_refl) as [Hs Ha]. split.
      * now rewrite Hs.
      * cbn [contains]. rewrite Ha, orb_false_r.
        destruct (startswith sep (c :: a')) eqn:S; [|reflexivity].
        exfalso. apply startswith_iff in S as [r Sr].
        assert (startswith sep (c :: s) = true).
        { apply startswith_iff. exists (r ++ sep ++ b').
          rewrite Hs. change (c :: a' ++ sep ++ b') with ((c :: a') ++ sep ++ b').
          rewrite Sr. now rewrite <- app_assoc. }
        congruence.
Qed.

(** When the removal applies, the text kept holds no closing tag. *)
Lemma second_part_no_close result :
  let sep := lit "</think>" in
  let parts := split sep result in
  contains sep result = true ->
  (1 <? length parts) = true /\ contains sep (nth 1 parts []) = false.
Proof.
  intros sep parts Hc. subst parts. unfold split.
  destruct (find_split sep result) as [[a rest]|] eqn:F.
  2:{ apply find_split_none in F. congruence. }
  destruct (find_split_some sep result a rest ltac:(discriminate) F) as [Hr _].
  destruct (length result) as [|n] eqn:L.
  { rewrite Hr in L. rewrite !length_app in L. simpl in L. lia. }
  cbn [split_fuel]. rewrite F.
  destruct n as [|n].
  { rewrite Hr in L. rewrite !length_app in L. simpl in L. lia. }
  cbn [split_fuel].
  destruct (find_split sep rest) as [[b rest']|] eqn:F2.
  - split; [reflexivity|]. cbn [nth].
    now destruct (find_split_some sep rest b rest' ltac:(discriminate) F2).
  - split; [reflexivity|]. cbn [nth]. now apply find_split_none.
Qed.

(** More fuel than the length of the text changes nothing: [split] never
    stops for lack of fuel. *)
Lemma split_fuel_stable sep n m s :
  sep <> [] -> length s <= n -> length s <= m ->
  split_fuel n sep s = split_fuel m sep s.
Proof.
  intros Hsep. revert m s. induction n as [|n IH]; intros m s Hn Hm.
  - destruct s; [|simpl in Hn; lia]. destruct m; [reflexivity|].
    cbn [split_fuel find_split]. destruct sep; [congruence | reflexivity].
  - destruct m as [|m].
    + destruct s; [|simpl in Hm; lia].
      cbn [split_fuel find_split]. destruct sep; [congruence | reflexivity].
    + cbn [split_fuel].
      destruct (find_split sep s) as [[a rest]|] eqn:F; [|reflexivity].
      destruct (find_split_some sep s a rest Hsep F) as [Hs _].
      assert (length rest < length s).
      { rewrite Hs, !length_app. destruct sep; [congruence | simpl; lia]. }
      f_equal. apply IH; lia.
Qed.

Lemma has_think_pair_mono s t :
  infix s t -> has_think_pair t = false -> has_think_pair s = false.
Proof.
  unfold has_think_pair. intros Hi H.
  apply andb_false_iff in H as [H|H]; apply andb_false_iff;
    [left|right]; eapply contains_mono; eauto.
Qed.

Lemma drop_thinking_without s : has_think_pair s = false -> drop_thinking s = s.
Proof. unfold has_think_pair, drop_thinking. now intros ->. Qed.

Lemma drop_thinking_no_pair s : has_think_pair (drop_thinking s) = false.
Proof.
  unfold drop_thinking.
  destruct (contains (lit "<think>") s && contains (lit "</think>") s) eqn:E.
  - apply andb_true_iff in E as [_ E].
    destruct (second_part_no_close s E) as [Hl Hn]. cbv zeta in Hl, Hn.
    rewrite Hl. unfold has_think_pair. apply andb_false_iff. right.
    eapply contains_mono; [apply strip_infix | exact Hn].
  - exact E.
Qed.

Lemma drop_thinking_stripped s : strip s = s -> strip (drop_thinking s) = drop_thinking s.
Proof.
  intros H. unfold drop_thinking.
  destruct (contains (lit "<think>") s && contains (lit "</think>") s); [|exact H].
  destruct (1 <? length (split (lit "</think>") s)); [apply strip_idem | exact H].
Qed.

(** A stripped text without a tag pair and without a match of either fence
    pattern is returned as it is. *)
Lemma clean_fixed t :
  strip t = t -> has_think_pair t = false ->
  first_fence icase_dotall (lit "```sql") t = None ->
  first_fence dotall_only BACKTICKS t = None ->
  clean_by_fences t = t.
Proof.
  intros Hs Ht H1 H2. unfold clean_by_fences. cbv zeta.
  rewrite Hs, (drop_thinking_without t Ht), H1, H2. reflexivity.
Qed.

Lemma clean_capture_fixed g result :
  infix g result -> has_think_pair result = false ->
  contains BACKTICKS g = false ->
  clean_by_fences (strip g) = strip g.
Proof.
  intros Hi Ht Hg.
  assert (Hb : contains BACKTICKS (strip g) = false).
  { eapply contains_mono; [apply strip_infix | exact Hg]. }
  apply clean_fixed.
  - apply strip_idem.
  - eapply has_think_pair_mono; [|exact Ht].
    eapply infix_trans; [apply strip_infix | exact Hi].
  - now apply first_fence_none.
  - now apply first_fence_none.
Qed.

(* ================================================================== *)
(** ** Properties of the validation policies *)

(** C1, as amended. A text that contains, in any letter case, one of the
    nine mutating keywords as a whole word is rejected by the direct-SQL
    policy; it is rejected by the generated-SQL policy when the keyword is
    one of the seven on that policy's own list (drop, delete, update,
    insert, alter, create, truncate). *)
Theorem mutating_keyword_rejected (sql w : str) :
  In w mutating_keywords -> occurs_as_word w sql ->
  _validate_sql_query sql = false
  /\ (In w dangerous -> _validate_generated_sql sql = false).
Proof.
  intros Hin Hocc. split.
  - now apply direct_rejects_keyword with (w := w).
  - intros Hd. now apply generated_rejects_dangerous with (w := w).
Qed.

Lemma mutating_keyword_rejected_witness :
  _validate_sql_query (lit "DROP TABLE users;") = false
  /\ (In (lit "drop") dangerous
      -> _validate_generated_sql (lit "DROP TABLE users;") = false).
Proof.
  apply (mutating_keyword_rejected (lit "DROP TABLE users;") (lit "drop")).
  - simpl. tauto.
  - exists [], (lit "DROP"), (lit " TABLE users;"). repeat split.
Defined.

(** C1 as stated fails: [exec] stands as a whole word in
    [select exec from t], which the generated-SQL policy accepts. *)
Lemma generated_policy_accepts_exec :
  ~ (forall sql w,
        In w mutating_keywords -> occurs_as_word w sql ->
        _validate_sql_query sql = false /\ _validate_generated_sql sql = false).
Proof.
  intros H.
  destruct (H (lit "select exec from t") (lit "exec")) as [_ Hg].
  - simpl. tauto.
  - exists (lit "select "), (lit "exec"), (lit " from t"). repeat split.
  - vm_compute in Hg. discriminate.
Qed.

(** C7, as amended. The direct-SQL policy accepts a text only if its
    lower-cased, trimmed form starts with [select]; it rejects every text in
    which [select] occurs more than twice as a piece of text, hence every
    text with more than two [select] keywords; and it accepts a text that
    starts with [select], matches none of the dangerous patterns and holds
    [select] at most twice as a piece of text. *)
Theorem direct_policy_select_bound (sql : str) :
  let sql_lower := strip (lower sql) in
  (_validate_sql_query sql = true -> startswith SELECT_lower sql_lower = true)
  /\ (2 < count SELECT_lower sql_lower -> _validate_sql_query sql = false)
  /\ (2 < keyword_count SELECT_lower sql_lower -> _validate_sql_query sql = false)
  /\ (no_dangerous_pattern sql_lower ->
      startswith SELECT_lower sql_lower = true ->
      count SELECT_lower sql_lower <= 2 ->
      _validate_sql_query sql = true).
Proof.
  intros sql_lower.
  assert (Hmany : 2 < count SELECT_lower sql_lower -> _validate_sql_query sql = false).
  { intros Hc. unfold _validate_sql_query. fold sql_lower. cbv zeta.
    destruct (existsb _ dangerous_patterns); [reflexivity|].
    fold SELECT_lower.
    destruct (startswith SELECT_lower sql_lower) eqn:Hs; [|reflexivity].
    cbn [negb].
    destruct (contains SELECT_lower (skipn 6 sql_lower)) eqn:Hin.
    - apply Nat.ltb_lt in Hc. now rewrite Hc.
    - rewrite (count_select_once sql_lower Hs Hin) in Hc. lia. }
  repeat split.
  - unfold _validate_sql_query. fold sql_lower. cbv zeta.
    destruct (existsb _ dangerous_patterns); [discriminate|].
    fold SELECT_lower.
    destruct (startswith SELECT_lower sql_lower); [reflexivity|discriminate].
  - exact Hmany.
  - intros Hk. apply Hmany.
    pose proof (keyword_count_le_count sql_lower). lia.
  - intros Hd Hs Hc. unfold _validate_sql_query. fold sql_lower. cbv zeta.
    unfold no_dangerous_pattern in Hd. rewrite Hd.
    fold SELECT_lower. rewrite Hs. cbn [negb].
    destruct (contains SELECT_lower (skipn 6 sql_lower)); [|reflexivity].
    destruct (2 <? count SELECT_lower sql_lower) eqn:E; [|reflexivity].
    apply Nat.ltb_lt in E. lia.
Qed.

Lemma direct_policy_select_bound_witness :
  _validate_sql_query (lit "select a from (select 1)") = true.
Proof.
  apply (direct_policy_select_bound (lit "select a from (select 1)")).
  - reflexivity.
  - reflexivity.
  - vm_compute. lia.
Defined.

(** C7 as stated fails: [select selected from (select 1)] holds the
    keyword [select] exactly twice, starts with it and matches no dangerous
    pattern, yet is rejected, because [selected] is counted as well. *)
Lemma two_select_keywords_rejected :
  ~ (forall sql,
        let sql_lower := strip (lower sql) in
        keyword_count SELECT_lower sql_lower = 2 ->
        startswith SELECT_lower sql_lower = true ->
        no_dangerous_pattern sql_lower ->
        _validate_sql_query sql = true).
Proof.
  intros H.
  specialize (H (lit "select selected from (select 1)")
                eq_refl eq_refl eq_refl).
  vm_compute in H. discriminate.
Qed.

(* ================================================================== *)
(** ** Properties of the cleaner *)

(** C8. Cleaning is idempotent. *)
Theorem clean_idempotent (s : str) :
  _clean_sql_output (_clean_sql_output s) = _clean_sql_output s.
Proof.
  rewrite !clean_by_fences_eq.
  set (result := drop_thinking (strip s)).
  assert (Hs : strip result = result)
    by (apply drop_thinking_stripped, strip_idem).
  assert (Ht : has_think_pair result = false) by apply drop_thinking_no_pair.
  remember (clean_by_fences s) as t eqn:Et.
  unfold clean_by_fences in Et. cbv zeta in Et. fold result in Et.
  destruct (first_fence icase_dotall (lit "```sql") result) as [g|] eqn:F1.
  - apply first_fence_some in F1 as [Hi Hg]. subst t.
    now apply clean_capture_fixed with (result := result).
  - destruct (first_fence dotall_only BACKTICKS result) as [g|] eqn:F2.
    + apply first_fence_some in F2 as [Hi Hg]. subst t.
      now apply clean_capture_fixed with (result := result).
    + subst t. now apply clean_fixed.
Qed.

(** *** A labelled fence after a prefix *)

Lemma space_not_backtick_eqb c : is_space c = true -> Ascii.eqb "`" c = false.
Proof. by_all_chars c. Qed.

Lemma backtick_not_space : is_space "`" = false.
Proof. reflexivity. Qed.

(** A non-empty text without a fence, followed by whitespace, does not
    start with a fence. *)
Lemma backticks_blocked z w0 rest :
  z <> [] -> contains BACKTICKS z = false -> is_space w0 = true ->
  startswith BACKTICKS (z ++ w0 :: rest) = false.
Proof.
  intros Hz Hc Hw. apply space_not_backtick_eqb in Hw.
  change BACKTICKS with ["`"; "`"; "`"]%char in *.
  destruct z as [|c [|d [|e z']]]; [congruence| | |]; cbn [app startswith].
  - now rewrite Hw, andb_false_r.
  - now rewrite Hw, !andb_false_r.
  - cbn [contains startswith] in Hc. now apply orb_false_iff in Hc as [Hc _].
Qed.

Lemma opener_sql_fourth f : Re.atom_ok f (Re.Chr "s") "`" = false.
Proof. destruct f as [[] []]; reflexivity. Qed.

(** A non-empty text without a fence, followed by the labelled opener,
    does not start with the labelled opener. *)
Lemma opener_sql_blocked f z rest :
  z <> [] -> contains BACKTICKS z = false ->
  starts f (lit "```sql") (z ++ lit "```sql" ++ rest) = false.
Proof.
  intros Hz Hc.
  change BACKTICKS with ["`"; "`"; "`"]%char in *.
  change (lit "```sql") with ["`"; "`"; "`"; "s"; "q"; "l"]%char.
  destruct z as [|c [|d [|e z']]]; [congruence| | |]; cbn [app starts];
    rewrite ?FenceFacts.backtick_ok, ?opener_sql_fourth.
  - now rewrite !andb_false_r.
  - now rewrite !andb_false_r.
  - cbn [contains startswith] in Hc. apply orb_false_iff in Hc as [Hc _].
    rewrite andb_true_r in Hc.
    destruct (Ascii.eqb "`" c); [|reflexivity].
    destruct (Ascii.eqb "`" d); [|reflexivity].
    destruct (Ascii.eqb "`" e); [discriminate|reflexivity].
Qed.

Lemma contains_tail p c s : contains p (c :: s) = false -> contains p s = false.
Proof. cbn [contains]. intros H. now apply orb_false_iff in H as [_ H]. Qed.

Lemma first_fence_skip_prefix f pre rest :
  contains BACKTICKS pre = false ->
  first_fence f (lit "```sql") (pre ++ lit "```sql" ++ rest)
  = first_fence f (lit "```sql") (lit "```sql" ++ rest).
Proof.
  induction pre as [|c pre IH]; intros H; [reflexivity|].
  change ((c :: pre) ++ lit "```sql" ++ rest)
    with (c :: (pre ++ lit "```sql" ++ rest)).
  cbn [first_fence]. unfold fence_at at 1.
  change (c :: (pre ++ lit "```sql" ++ rest))
    with ((c :: pre) ++ lit "```sql" ++ rest).
  rewrite opener_sql_blocked; [|discriminate|exact H].
  apply IH. eapply contains_tail; eauto.
Qed.

Lemma starts_app f w r : starts f w (w ++ r) = true.
Proof.
  induction w as [|a w IH]; [reflexivity|]. cbn [app starts].
  now rewrite ReFacts.atom_chr_refl, IH.
Qed.

Lemma fence_close_at_fence w rest :
  forallb is_space w = true -> fence_close (w ++ BACKTICKS ++ rest) = true.
Proof.
  intros Hw. unfold fence_close. rewrite drop_while_all by exact Hw.
  reflexivity.
Qed.

(** The capture runs up to the whitespace before the closing fence. *)
Lemma fence_body_core x d w0 w rest :
  is_space d = false -> is_space w0 = true -> forallb is_space w = true ->
  contains BACKTICKS (x ++ [d]) = false ->
  fence_body ((x ++ [d]) ++ (w0 :: w) ++ BACKTICKS ++ rest) = Some (x ++ [d]).
Proof.
  intros Hd Hw0 Hw. induction x as [|c x IH]; intros Hc.
  - cbn [app fence_body]. unfold fence_close at 1. cbn [drop_while].
    rewrite Hd.
    change (d :: w0 :: w ++ BACKTICKS ++ rest)
      with ([d] ++ w0 :: (w ++ BACKTICKS ++ rest)).
    rewrite backticks_blocked by (try discriminate; auto).
    change (w0 :: w ++ BACKTICKS ++ rest) with ((w0 :: w) ++ BACKTICKS ++ rest).
    rewrite fence_close_at_fence; [reflexivity|].
    simpl. now rewrite Hw0.
  - change (((c :: x) ++ [d]) ++ (w0 :: w) ++ BACKTICKS ++ rest)
      with (c :: ((x ++ [d]) ++ (w0 :: w) ++ BACKTICKS ++ rest)).
    cbn [fence_body].
    assert (Hcl : fence_close (c :: ((x ++ [d]) ++ (w0 :: w) ++ BACKTICKS ++ rest))
                  = false).
    { unfold fence_close.
      change (c :: ((x ++ [d]) ++ (w0 :: w) ++ BACKTICKS ++ rest))
        with ((c :: x ++ [d]) ++ (w0 :: w) ++ BACKTICKS ++ rest).
      replace ((c :: x ++ [d]) ++ (w0 :: w) ++ BACKTICKS ++ rest)
        with ((c :: x) ++ d :: ((w0 :: w) ++ BACKTICKS ++ rest))
        by (simpl; now rewrite <- app_assoc).
      rewrite drop_while_app_stop by exact Hd.
      replace (drop_while is_space (c :: x) ++ d :: (w0 :: w) ++ BACKTICKS ++ rest)
        with ((drop_while is_space (c :: x) ++ [d])
                ++ w0 :: (w ++ BACKTICKS ++ rest))
        by (now rewrite <- app_assoc).
      apply backticks_blocked; [|
        |exact Hw0].
      - destruct (drop_while is_space (c :: x)); discriminate.
      - eapply contains_mono; [|exact Hc].
        destruct (drop_while_suffix is_space (c :: x)) as [a [E _]].
        exists a, []. rewrite app_nil_r.
        change ((c :: x) ++ [d]) with ((c :: x) ++ [d]).
        rewrite E at 1. now rewrite <- app_assoc. }
    rewrite Hcl. rewrite IH; [reflexivity|].
    eapply contains_tail. exact Hc.
Qed.

Lemma strip_head_not_space s c r : strip s = c :: r -> is_space c = false.
Proof.
  intros E. unfold strip in E. destruct (rstrip_head _ _ _ E) as [r' E'].
  eapply drop_while_head. exact E'.
Qed.

Lemma strip_last_not_space s : strip s <> [] ->
  exists x d, strip s = x ++ [d] /\ is_space d = false.
Proof.
  intros Hne. destruct (rev (strip s)) as [|d r] eqn:E.
  - apply (f_equal (@rev _)) in E. rewrite rev_involutive in E. contradiction.
  - exists (rev r), d. split.
    + apply (f_equal (@rev _)) in E. now rewrite rev_involutive in E.
    + unfold strip in E. eapply rstrip_last. exact E.
Qed.

(** After the opener, the capture of a fence-free text is its trimmed form. *)
Lemma fence_body_trims sql rest :
  contains BACKTICKS sql = false ->
  exists g, fence_body (drop_while is_space (NL ++ sql ++ NL ++ BACKTICKS ++ rest))
            = Some g /\ strip g = strip sql.
Proof.
  intros Hc.
  destruct (strip_decompose sql) as [a [b [E [Ha Hb]]]].
  assert (Hcore : contains BACKTICKS (strip sql) = false)
    by (eapply contains_mono; [apply strip_infix | exact Hc]).
  assert (Hidem := strip_idem sql).
  assert (Hhead := strip_head_not_space sql).
  assert (Hlast := strip_last_not_space sql).
  remember (strip sql) as core eqn:Es. clear Es.
  change (NL ++ sql ++ NL ++ BACKTICKS ++ rest)
    with ("010"%char :: (sql ++ NL ++ BACKTICKS ++ rest)).
  cbn [drop_while]. change (is_space "010") with true. cbv iota.
  rewrite E. rewrite <- !app_assoc.
  rewrite drop_while_all by exact Ha.
  assert (Hw : exists w0 w, b ++ NL = w0 :: w /\ is_space w0 = true
                            /\ forallb is_space w = true).
  { destruct b as [|b0 b']; simpl in *.
    - exists "010"%char, []. auto.
    - apply andb_true_iff in Hb as [H0 H1]. exists b0, (b' ++ NL).
      repeat split; auto. rewrite forallb_app, H1. reflexivity. }
  destruct Hw as [w0 [w [Ew [Hw0 Hw]]]].
  replace (b ++ NL ++ BACKTICKS ++ rest) with ((w0 :: w) ++ BACKTICKS ++ rest)
    by (rewrite <- Ew; now rewrite <- app_assoc).
  destruct core as [|c core].
  - exists []. split; [|reflexivity]. cbn [app].
    change (w0 :: w ++ BACKTICKS ++ rest) with ((w0 :: w) ++ BACKTICKS ++ rest).
    rewrite drop_while_all by (simpl; now rewrite Hw0).
    reflexivity.
  - destruct Hlast as [x [d [Ex Hd]]]; [discriminate|].
    rewrite drop_while_fixed by (cbn [app]; eapply Hhead; reflexivity).
    exists (c :: core). split; [|exact Hidem].
    rewrite Ex in *. now apply fence_body_core.
Qed.

Lemma first_fence_here f opener s g :
  fence_at f opener s = Some g -> first_fence f opener s = Some g.
Proof. intros H. destruct s; cbn [first_fence]; now rewrite H. Qed.

Lemma skipn_app_exact (w r : str) : skipn (length w) (w ++ r) = r.
Proof. rewrite skipn_app, skipn_all, Nat.sub_diag. reflexivity. Qed.

Lemma strip_between a c m d b :
  is_space c = false -> is_space d = false ->
  strip (a ++ c :: m ++ d :: b) = lstrip a ++ c :: m ++ d :: rstrip b.
Proof.
  intros Hc Hd. unfold strip. rewrite lstrip_app_stop by exact Hc.
  replace (lstrip a ++ c :: m ++ d :: b) with ((lstrip a ++ c :: m) ++ d :: b)
    by (now rewrite <- app_assoc).
  rewrite rstrip_app_stop by exact Hd. now rewrite <- app_assoc.
Qed.

(** C9, as amended. When neither the prefix nor the SQL text holds a fence
    of three backticks and the input does not hold both reasoning tags,
    cleaning the prefix, the labelled fence around the SQL text and the
    suffix returns the SQL text, trimmed. *)
Theorem labelled_fence_extracted (prefix suffix sql : str) :
  let raw := prefix ++ lit "```sql" ++ NL ++ sql ++ NL ++ BACKTICKS ++ suffix in
  contains BACKTICKS prefix = false ->
  contains BACKTICKS sql = false ->
  has_think_pair raw = false ->
  _clean_sql_output raw = strip sql.
Proof.
  intros raw Hp Hs Ht. rewrite clean_by_fences_eq. unfold clean_by_fences.
  cbv zeta.
  assert (Estrip : strip raw
                   = lstrip prefix ++ lit "```sql"
                       ++ NL ++ sql ++ NL ++ BACKTICKS ++ rstrip suffix).
  { unfold raw.
    replace (prefix ++ lit "```sql" ++ NL ++ sql ++ NL ++ BACKTICKS ++ suffix)
      with (prefix ++ "`"%char
              :: (lit "``sql" ++ NL ++ sql ++ NL ++ lit "``") ++ "`"%char :: suffix)
      by (rewrite <- !app_assoc; reflexivity).
    rewrite strip_between by reflexivity.
    rewrite <- !app_assoc. reflexivity. }
  rewrite drop_thinking_without
    by (eapply has_think_pair_mono; [apply strip_infix | exact Ht]).
  rewrite Estrip.
  rewrite first_fence_skip_prefix
    by (eapply contains_mono; [apply drop_while_infix | exact Hp]).
  destruct (fence_body_trims sql (rstrip suffix) Hs) as [g [Hg Hstrip]].
  rewrite (first_fence_here icase_dotall (lit "```sql") _ g).
  - exact Hstrip.
  - unfold fence_at. rewrite starts_app, skipn_app_exact. exact Hg.
Qed.

Lemma labelled_fence_extracted_witness :
  _clean_sql_output
    (lit "Here's the SQL query:" ++ NL ++ lit "```sql" ++ NL
       ++ lit "SELECT * FROM users;" ++ NL ++ BACKTICKS ++ [])
  = strip (lit "SELECT * FROM users;").
Proof.
  apply (labelled_fence_extracted
           (lit "Here's the SQL query:" ++ NL) [] (lit "SELECT * FROM users;"));
    reflexivity.
Defined.

(** C9 as stated fails: a prefix that itself holds a labelled fence wins,
    since the search stops at the leftmost match. *)
Lemma labelled_fence_in_prefix_wins :
  ~ (forall prefix suffix sql,
        _clean_sql_output
          (prefix ++ lit "```sql" ++ NL ++ sql ++ NL ++ BACKTICKS ++ suffix)
        = strip sql).
Proof.
  intros H.
  specialize (H (lit "```sql" ++ NL ++ lit "A" ++ NL ++ BACKTICKS) []
                (lit "B")).
  vm_compute in H. discriminate.
Qed.

(* ================================================================== *)
(** ** Properties of [DuckDBService] *)



Lemma limited_query_keeps query n :
  contains (lit "LIMIT") (strip (upper query)) = true ->
  limited_query query n = query.
Proof.
  intros Hc. unfold limited_query. cbv zeta. rewrite Hc.
  now rewrite !andb_false_r.
Qed.







(** C10. When the store is reachable and holds no table, [get_table_info]
    returns exactly [No tables found in database.] *)
Theorem get_table_info_no_tables (db : DuckDBService) (conn : connection) :
  _get_connection db = Ok conn ->
  conn_execute conn (lit "SHOW TABLES") = Ok [] ->
  get_table_info db = lit "No tables found in database.".
Proof.
  intros Hconn Hshow. unfold get_table_info. cbv zeta.
  now rewrite Hconn, Hshow.
Qed.

Lemma get_table_info_no_tables_witness :
  get_table_info empty_service = lit "No tables found in database.".
Proof.
  apply (get_table_info_no_tables empty_service empty_connection);
    reflexivity.
Defined.

Lemma column_entries_describe cols :
  column_entries (describe_frame cols) = Some (map column_entry cols).
Proof.
  induction cols as [|[n t] cols IH]; [reflexivity|].
  cbn [describe_frame map column_entries] in *.
  change (get_column (lit "column_name")
            [(lit "column_name", VText (fst (n, t)));
             (lit "column_type", VText (snd (n, t)))])
    with (Some (VText n)).
  change (get_column (lit "column_type")
            [(lit "column_name", VText (fst (n, t)));
             (lit "column_type", VText (snd (n, t)))])
    with (Some (VText t)).
  cbv iota. fold (describe_frame cols). rewrite IH. reflexivity.
Qed.

Lemma table_section_described conn name cols :
  conn_execute conn (lit "DESCRIBE " ++ format_value name)
  = Ok (describe_frame cols) ->
  table_section conn name = described_section (format_value name) cols.
Proof.
  intros H. unfold table_section. cbv zeta.
  now rewrite H, column_entries_describe.
Qed.

Lemma table_section_failed conn name e :
  conn_execute conn (lit "DESCRIBE " ++ format_value name) = Raise e ->
  table_section conn name = section_error (format_value name).
Proof. intros H. unfold table_section. cbv zeta. now rewrite H. Qed.

(** C5. When the listing succeeds, the description of one table fails and
    the descriptions of the others succeed, [get_table_info] returns the
    sections in listing order, joined by a blank line: the placeholder
    section for the failing table and the normal section for every other
    one. *)
Theorem get_table_info_one_failure (db : DuckDBService) (conn : connection)
        (tables_df : list row) (before after : list value) (failing : value)
        (cols : value -> list (str * str)) (e : exn) :
  _get_connection db = Ok conn ->
  conn_execute conn (lit "SHOW TABLES") = Ok tables_df ->
  column (lit "name") tables_df = Some (before ++ failing :: after) ->
  conn_execute conn (lit "DESCRIBE " ++ format_value failing) = Raise e ->
  (forall t, In t (before ++ after) ->
             conn_execute conn (lit "DESCRIBE " ++ format_value t)
             = Ok (describe_frame (cols t))) ->
  let normal t := described_section (format_value t) (cols t) in
  get_table_info db
  = join (NL ++ NL)
         (map normal before
            ++ section_error (format_value failing) :: map normal after)
  /\ section_error (format_value failing)
     = lit "Table: " ++ format_value failing ++ NL
         ++ lit "Columns: [Error retrieving schema]"
  /\ (forall t, normal t
                = lit "Table: " ++ format_value t ++ NL ++ lit "Columns: "
                    ++ join (lit ", ") (map column_entry (cols t))).
Proof.
  intros Hconn Hshow Hnames Hfail Hothers normal.
  split; [|split; reflexivity].
  unfold get_table_info. cbv zeta. rewrite Hconn, Hshow.
  destruct tables_df as [|r tables_df].
  { simpl in Hnames. destruct before; discriminate. }
  rewrite Hnames. f_equal.
  rewrite map_app. cbn [map]. f_equal; [|f_equal].
  - apply map_ext_in. intros t Ht. apply table_section_described.
    apply Hothers. apply in_or_app. now left.
  - eapply table_section_failed; eauto.
  - apply map_ext_in. intros t Ht. apply table_section_described.
    apply Hothers. apply in_or_app. now right.
Qed.

Lemma get_table_info_one_failure_witness :
  get_table_info demo_service
  = lit "Table: users" ++ NL ++ lit "Columns: id (INTEGER), name (VARCHAR)"
      ++ NL ++ NL
      ++ lit "Table: orders" ++ NL ++ lit "Columns: [Error retrieving schema]"
      ++ NL ++ NL
      ++ lit "Table: t" ++ NL ++ lit "Columns: id (INTEGER)".
Proof.
  pose (cols := fun t : value =>
                  if str_eqb (format_value t) (lit "users")
                  then [(lit "id", lit "INTEGER"); (lit "name", lit "VARCHAR")]
                  else [(lit "id", lit "INTEGER")]).
  destruct (get_table_info_one_failure demo_service demo_connection
              (tables_frame [lit "users"; lit "orders"; lit "t"])
              [VText (lit "users")] [VText (lit "t")] (VText (lit "orders"))
              cols (store_error (lit "Catalog Error"))
              eq_refl eq_refl eq_refl eq_refl) as [H _].
  - intros t [<-|[<-|[]]]; reflexivity.
  - rewrite H. reflexivity.
Defined.

(* ================================================================== *)
(** ** Properties of [SQLChainManager] *)

Lemma count_events_app p a b :
  count_events p (a ++ b) = count_events p a + count_events p b.
Proof. unfold count_events. now rewrite filter_app, length_app. Qed.

(** A refresh that succeeds stores the schema with the time of the call. *)
Lemma get_schema_info_refresh w t st schema :
  needs_refresh (fst st) t = true ->
  svc_get_table_info w = Ok schema ->
  _get_schema_info w t st
  = (Ok schema,
     ({| _cached_schema := Some schema; _schema_cache_time := Some t |},
      snd st ++ [Introspect])).
Proof.
  intros Hr Hs. unfold _get_schema_info, bind, get_manager.
  rewrite Hr. unfold try_except, bind, tell, lift, set_manager, ret.
  cbn [fst snd]. now rewrite Hs.
Qed.

(** A refresh that fails leaves the cache as it was. *)
Lemma get_schema_info_failure w t st e :
  needs_refresh (fst st) t = true ->
  svc_get_table_info w = Raise e ->
  _get_schema_info w t st
  = (Raise (runtime_error (lit "Failed to retrieve schema info: " ++ message e)),
     (fst st, snd st ++ [Introspect])).
Proof.
  intros Hr Hs. unfold _get_schema_info, bind, get_manager.
  rewrite Hr. unfold try_except, bind, tell, lift, raise.
  cbn [fst snd]. now rewrite Hs.
Qed.

(** A fresh cache is answered without a call. *)
Lemma get_schema_info_cached w t st :
  needs_refresh (fst st) t = false ->
  exists schema, _cached_schema (fst st) = Some schema
                 /\ _get_schema_info w t st = (Ok schema, st).
Proof.
  intros Hr. unfold _get_schema_info, bind, get_manager. rewrite Hr.
  unfold needs_refresh in Hr.
  destruct (_cached_schema (fst st)) as [schema|]; [|discriminate].
  exists schema. split; reflexivity.
Qed.

(** [_get_schema_info] makes at most one call, an introspection. *)
Lemma get_schema_info_trace w t st :
  exists l, snd (snd (_get_schema_info w t st)) = snd st ++ l
            /\ (l = [] \/ l = [Introspect]).
Proof.
  destruct (needs_refresh (fst st) t) eqn:Hr.
  - exists [Introspect]. split; [|now right].
    destruct (svc_get_table_info w) as [schema|e] eqn:Hs.
    + now rewrite (get_schema_info_refresh w t st schema Hr Hs).
    + now rewrite (get_schema_info_failure w t st e Hr Hs).
  - exists []. split; [|now left].
    destruct (get_schema_info_cached w t st Hr) as [schema [_ ->]].
    now rewrite app_nil_r.
Qed.

Lemma needs_refresh_within m schema t now :
  _cached_schema m = Some schema -> _schema_cache_time m = Some t ->
  (now - t <= _cache_ttl)%Q -> needs_refresh m now = false.
Proof.
  intros Hc Ht Hle. unfold needs_refresh. rewrite Hc, Ht.
  apply Qle_bool_iff in Hle. now rewrite Hle.
Qed.

Lemma needs_refresh_expired m schema t now :
  _cached_schema m = Some schema -> _schema_cache_time m = Some t ->
  (_cache_ttl < now - t)%Q -> needs_refresh m now = true.
Proof.
  intros Hc Ht Hlt. unfold needs_refresh. rewrite Hc, Ht.
  destruct (Qle_bool (now - t) _cache_ttl) eqn:E; [|reflexivity].
  apply Qle_bool_iff in E. exfalso. eapply Qlt_not_le; eauto.
Qed.

(** C6. After a fetch at [t1] that had to introspect, a second fetch at
    [t2] with [t2 - t1 <= 300] makes no further call and returns the same
    string, so the two fetches make exactly one introspection call; with
    [t2 - t1 > 300] the second fetch makes a second call. *)
Theorem schema_cache_ttl (w1 w2 : collaborators) (t1 t2 : Q) (schema : str)
        (st0 : state) :
  needs_refresh (fst st0) t1 = true ->
  svc_get_table_info w1 = Ok schema ->
  let first := _get_schema_info w1 t1 st0 in
  let second := _get_schema_info w2 t2 (snd first) in
  let calls st := count_events is_introspect (snd st) in
  fst first = Ok schema
  /\ _schema_cache_time (fst (snd first)) = Some t1
  /\ calls (snd first) = calls st0 + 1
  /\ ((t2 - t1 <= _cache_ttl)%Q ->
      fst second = Ok schema /\ calls (snd second) = calls st0 + 1)
  /\ ((_cache_ttl < t2 - t1)%Q -> calls (snd second) = calls st0 + 2).
Proof.
  intros Hr Hs first second calls.
  assert (E1 : first = (Ok schema,
                        ({| _cached_schema := Some schema;
                            _schema_cache_time := Some t1 |},
                         snd st0 ++ [Introspect])))
    by (apply get_schema_info_refresh; assumption).
  assert (Hcalls : calls (snd first) = calls st0 + 1).
  { rewrite E1. unfold calls. cbn [snd]. now rewrite count_events_app. }
  repeat split.
  - now rewrite E1.
  - now rewrite E1.
  - exact Hcalls.
  - destruct (get_schema_info_cached w2 t2 (snd first)) as [s [Hc He]].
    { rewrite E1. cbn [fst snd].
      now apply needs_refresh_within with (schema := schema) (t := t1). }
    fold second in He. rewrite He. cbn [fst].
    rewrite E1 in Hc. cbn in Hc. congruence.
  - destruct (get_schema_info_cached w2 t2 (snd first)) as [s [Hc He]].
    { rewrite E1. cbn [fst snd].
      now apply needs_refresh_within with (schema := schema) (t := t1). }
    fold second in He. rewrite He. exact Hcalls.
  - intros Hlt.
    assert (Hexp : needs_refresh (fst (snd first)) t2 = true).
    { rewrite E1. cbn [fst snd].
      now apply needs_refresh_expired with (schema := schema) (t := t1). }
    assert (Ht : snd (snd second) = snd (snd first) ++ [Introspect]).
    { unfold second.
      destruct (svc_get_table_info w2) as [s2|e2] eqn:Hs2.
      - now rewrite (get_schema_info_refresh w2 t2 (snd first) s2 Hexp Hs2).
      - now rewrite (get_schema_info_failure w2 t2 (snd first) e2 Hexp Hs2). }
    unfold calls in *. rewrite Ht, count_events_app, Hcalls.
    unfold count_events. simpl. lia.
Qed.

Lemma schema_cache_ttl_witness :
  let w := with_service demo_service fenced_generator in
  let st0 : state := (new_manager, []) in
  let first := _get_schema_info w (1000 # 1) st0 in
  fst first = Ok (get_table_info demo_service)
  /\ fst (_get_schema_info w (1200 # 1) (snd first)) = Ok (get_table_info demo_service)
  /\ count_events is_introspect
       (snd (snd (_get_schema_info w (1200 # 1) (snd first)))) = 1
  /\ count_events is_introspect
       (snd (snd (_get_schema_info w (1400 # 1) (snd first)))) = 2.
Proof.
  intros w st0 first.
  destruct (schema_cache_ttl w w (1000 # 1) (1200 # 1)
              (get_table_info demo_service) st0 eq_refl eq_refl)
    as [H1 [_ [_ [Hin _]]]].
  destruct (schema_cache_ttl w w (1000 # 1) (1400 # 1)
              (get_table_info demo_service) st0 eq_refl eq_refl)
    as [_ [_ [_ [_ Hout]]]].
  destruct Hin as [H2 H3]; [unfold _cache_ttl; lra|].
  specialize (Hout ltac:(unfold _cache_ttl; lra)).
  repeat split; assumption.
Defined.

(** A rejected generation: the outcome and the state it leaves. *)
Lemma natural_language_to_sql_rejected w t q st st1 schema raw :
  _get_schema_info w t st = (Ok schema, st1) ->
  chain_invoke w schema q = Ok raw ->
  _validate_generated_sql (_clean_sql_output raw) = false ->
  natural_language_to_sql w t q st
  = (Raise (runtime_error (lit "Failed to generate SQL query: "
                             ++ lit "Generated SQL failed validation")),
     (fst st1, snd st1 ++ [Generate schema q])).
Proof.
  intros Hschema Hraw Hrej.
  unfold natural_language_to_sql, try_except, bind.
  rewrite Hschema. unfold tell, lift. cbn [fst snd]. rewrite Hraw.
  rewrite Hrej. reflexivity.
Qed.

(** The calls made by a rejected generation. *)
Lemma rejected_generation_counts w t q st st1 schema :
  _get_schema_info w t st = (Ok schema, st1) ->
  let tr := snd st1 ++ [Generate schema q] in
  count_events is_generate tr = count_events is_generate (snd st) + 1
  /\ count_events is_execute tr = count_events is_execute (snd st).
Proof.
  intros Hschema tr.
  destruct (get_schema_info_trace w t st) as [l [Hl Hcases]].
  rewrite Hschema in Hl. cbn [snd] in Hl. unfold tr.
  rewrite Hl, !count_events_app.
  destruct Hcases as [-> | ->]; unfold count_events; simpl; lia.
Qed.

(** C4. When the schema fetch and the generation call succeed and the
    cleaned output is rejected by the generated-SQL policy,
    [natural_language_to_sql] raises a [RuntimeError] whose message holds
    [Generated SQL failed validation]; it has made exactly one generation
    call and no execution call. *)
Theorem rejected_generation_fails (w : collaborators) (t : Q) (q : str)
        (st st1 : state) (schema raw : str) :
  _get_schema_info w t st = (Ok schema, st1) ->
  chain_invoke w schema q = Ok raw ->
  _validate_generated_sql (_clean_sql_output raw) = false ->
  let out := natural_language_to_sql w t q st in
  fst out
  = Raise (runtime_error (lit "Failed to generate SQL query: "
                            ++ lit "Generated SQL failed validation"))
  /\ infix (lit "Generated SQL failed validation")
           (lit "Failed to generate SQL query: "
              ++ lit "Generated SQL failed validation")
  /\ snd (snd out) = snd st1 ++ [Generate schema q]
  /\ count_events is_generate (snd (snd out))
     = count_events is_generate (snd st) + 1
  /\ count_events is_execute (snd (snd out))
     = count_events is_execute (snd st).
Proof.
  intros Hschema Hraw Hrej out.
  assert (Eout := natural_language_to_sql_rejected w t q st st1 schema raw
                    Hschema Hraw Hrej).
  fold out in Eout. rewrite Eout. cbn [fst snd].
  destruct (rejected_generation_counts w t q st st1 schema Hschema) as [Hg He].
  split; [reflexivity|]. split.
  { exists (lit "Failed to generate SQL query: "), []. now rewrite app_nil_r. }
  split; [reflexivity|]. split; assumption.
Qed.

Lemma rejected_generation_fails_witness :
  let w := with_service demo_service dropping_generator in
  let out := natural_language_to_sql w (0 # 1) (lit "Remove the users")
                                     (new_manager, []) in
  fst out
  = Raise (runtime_error (lit "Failed to generate SQL query: "
                            ++ lit "Generated SQL failed validation"))
  /\ count_events is_generate (snd (snd out)) = 1
  /\ count_events is_execute (snd (snd out)) = 0.
Proof.
  intros w out.
  destruct (rejected_generation_fails w (0 # 1) (lit "Remove the users")
              (new_manager, [])
              ({| _cached_schema := Some (get_table_info demo_service);
                  _schema_cache_time := Some (0 # 1)%Q |}, [Introspect])
              (get_table_info demo_service) (lit "DROP TABLE users;")
              eq_refl eq_refl eq_refl)
    as [H1 [_ [_ [H2 H3]]]].
  repeat split; assumption.
Defined.

(** The [/query] handler answers such a question with status 500 and does
    not call the store's [execute_query]. *)
Lemma query_endpoint_rejected_generation db invoke t payload st st1 schema raw :
  use_nlq payload = true ->
  _get_schema_info (with_service db invoke) t st = (Ok schema, st1) ->
  invoke schema (question payload) = Ok raw ->
  _validate_generated_sql (_clean_sql_output raw) = false ->
  let out := query_endpoint db invoke t payload st in
  fst out
  = HTTPException 500
      (lit "Query execution failed: " ++ lit "Failed to generate SQL query: "
         ++ lit "Generated SQL failed validation")
  /\ count_events is_execute (snd (snd out)) = count_events is_execute (snd st).
Proof.
  intros Hnlq Hschema Hraw Hrej out.
  unfold out, query_endpoint. cbv zeta. rewrite Hnlq.
  rewrite (natural_language_to_sql_rejected (with_service db invoke) t
             (question payload) st st1 schema raw Hschema Hraw Hrej).
  cbn [fst snd message runtime_error].
  split; [reflexivity|].
  now destruct (rejected_generation_counts (with_service db invoke) t
                  (question payload) st st1 schema Hschema).
Qed.

(** A direct statement that the policy rejects is answered with status 400,
    without any call. *)
Lemma query_endpoint_rejected_direct db invoke t payload st :
  use_nlq payload = false ->
  _validate_sql_query (question payload) = false ->
  query_endpoint db invoke t payload st
  = (HTTPException 400
       (lit "Invalid SQL query. Only safe SELECT statements are allowed for direct queries."),
     st).
Proof.
  intros Hnlq Hrej. unfold query_endpoint. cbv zeta.
  now rewrite Hnlq, Hrej.
Qed.

(** What [get_table_info] does when the store cannot be opened. *)
Lemma get_table_info_unreachable db e :
  connect db = Raise e ->
  get_table_info db
  = lit "Error retrieving schema: "
      ++ lit "Failed to initialize DuckDB connection: " ++ message e.
Proof.
  intros H. unfold get_table_info, _get_connection. cbv zeta.
  now rewrite H.
Qed.

(** C2, on the code. With a store that cannot be opened, [get_table_info]
    returns an error text instead of raising; [_get_schema_info] stores it
    as the schema together with the time, and
    [natural_language_to_sql] goes on to the generation call with it and
    returns the generated statement. *)
Theorem unreachable_store_error_is_cached :
  let w := with_service unreachable_service fenced_generator in
  let err := lit "Error retrieving schema: Failed to initialize DuckDB connection: Connection failed" in
  let cached := {| _cached_schema := Some err;
                   _schema_cache_time := Some (0 # 1)%Q |} in
  let question := lit "Show me all users" in
  get_table_info unreachable_service = err
  /\ _get_schema_info w (0 # 1) (new_manager, [])
     = (Ok err, (cached, [Introspect]))
  /\ natural_language_to_sql w (0 # 1) question (new_manager, [])
     = (Ok (lit "SELECT * FROM users;"),
        (cached, [Introspect; Generate err question])).
Proof. repeat split. Qed.

(* ================================================================== *)
(** ** Further properties of the cleaner *)

Lemma clean_output_stripped (s : str) :
  strip (_clean_sql_output s) = _clean_sql_output s.
Proof.
  rewrite clean_by_fences_eq. unfold clean_by_fences. cbv zeta.
  destruct (first_fence icase_dotall _ _); [apply strip_idem|].
  destruct (first_fence dotall_only _ _); [apply strip_idem|].
  apply drop_thinking_stripped, strip_idem.
Qed.

(** The cleaned text is trimmed: cleaning never leaves whitespace at
    either end, whichever of its three ways out it takes. *)
Theorem clean_is_trimmed (s : str) :
  strip (_clean_sql_output s) = _clean_sql_output s.
Proof. exact (clean_output_stripped s). Qed.

(** A text without a fence of three backticks and without the pair of
    reasoning tags is returned trimmed, and nothing else is done to it. *)
Theorem clean_plain_text (s : str) :
  contains BACKTICKS s = false ->
  has_think_pair s = false ->
  _clean_sql_output s = strip s.
Proof.
  intros Hb Ht. rewrite clean_by_fences_eq. unfold clean_by_fences. cbv zeta.
  rewrite drop_thinking_without
    by (eapply has_think_pair_mono; [apply strip_infix | exact Ht]).
  assert (Hs : contains BACKTICKS (strip s) = false)
    by (eapply contains_mono; [apply strip_infix | exact Hb]).
  now rewrite !first_fence_none by exact Hs.
Qed.

Lemma clean_plain_text_witness :
  _clean_sql_output (lit "  SELECT * FROM products ORDER BY price DESC;  ")
  = strip (lit "  SELECT * FROM products ORDER BY price DESC;  ").
Proof.
  apply (clean_plain_text
           (lit "  SELECT * FROM products ORDER BY price DESC;  "));
    reflexivity.
Defined.

Lemma find_split_absent sep s : contains sep s = false -> find_split sep s = None.
Proof.
  induction s as [|c s IH]; cbn [find_split contains]; intros H;
    apply orb_false_iff in H as [H1 H2]; rewrite H1; [reflexivity|].
  now rewrite IH.
Qed.

(** The closing tag cannot start inside a text that does not hold it and
    run over into a closing tag that follows. *)
Lemma think_close_first a b :
  contains (lit "</think>") a = false ->
  find_split (lit "</think>") (a ++ lit "</think>" ++ b) = Some (a, b).
Proof.
  induction a as [|c a IH]; intros H; [reflexivity|].
  assert (Hhead : startswith (lit "</think>") ((c :: a) ++ lit "</think>" ++ b)
                  = false).
  { cbn [contains] in H. apply orb_false_iff in H as [H _].
    destruct a as [|c2 [|c3 [|c4 [|c5 [|c6 [|c7 [|c8 a]]]]]]];
      cbn in H |- *; rewrite ?andb_false_r; try reflexivity.
    rewrite ?andb_true_r in *. exact H. }
  change ((c :: a) ++ lit "</think>" ++ b)
    with (c :: (a ++ lit "</think>" ++ b)) in *.
  cbn [find_split]. rewrite Hhead.
  rewrite IH; [reflexivity|]. eapply contains_tail; eauto.
Qed.

Lemma drop_while_all_nil p a : forallb p a = true -> drop_while p a = [].
Proof.
  intros H. rewrite <- (app_nil_r a). now rewrite drop_while_all.
Qed.

Lemma strip_rstrip s : strip (rstrip s) = strip s.
Proof.
  destruct (rstrip_decompose s) as [b [E Hb]].
  destruct (rev (rstrip s)) as [|d r] eqn:R.
  - apply (f_equal (@rev _)) in R. rewrite rev_involutive in R. simpl in R.
    rewrite R in E |- *. simpl in E. subst s. unfold strip, lstrip.
    rewrite (drop_while_all_nil is_space b Hb). reflexivity.
  - assert (Hd : is_space d = false) by (eapply rstrip_last; eauto).
    apply (f_equal (@rev _)) in R. rewrite rev_involutive in R. simpl in R.
    unfold strip. rewrite E at 2. rewrite R.
    rewrite <- !app_assoc. cbn [app].
    rewrite !lstrip_app_stop by exact Hd.
    replace (lstrip (rev r) ++ d :: b) with ((lstrip (rev r) ++ [d]) ++ b)
      by (now rewrite <- app_assoc).
    now rewrite (rstrip_app_space (lstrip (rev r) ++ [d]) b Hb).
Qed.

Lemma think_open_no_close r :
  contains (lit "</think>") r = false ->
  contains (lit "</think>") (lit "<think>" ++ r) = false.
Proof.
  intros H.
  destruct r as [|c1 [|c2 [|c3 [|c4 [|c5 [|c6 [|c7 r]]]]]]];
    cbn in H |- *; rewrite ?andb_false_r; cbn; try reflexivity.
  exact H.
Qed.

(** What the removal of the reasoning block leaves of a text that opens
    with a reasoning block. *)
Lemma drop_thinking_leading r rest :
  contains (lit "</think>") r = false ->
  contains (lit "</think>") rest = false ->
  drop_thinking (strip (lit "<think>" ++ r ++ lit "</think>" ++ rest))
  = strip rest.
Proof.
  intros Hr Hrest.
  assert (Estrip : strip (lit "<think>" ++ r ++ lit "</think>" ++ rest)
                   = (lit "<think>" ++ r) ++ lit "</think>" ++ rstrip rest).
  { replace (lit "<think>" ++ r ++ lit "</think>" ++ rest)
      with ([] ++ "<"%char :: (lit "think>" ++ r ++ lit "</think")
               ++ ">"%char :: rest)
      by (cbn [app lit list_ascii_of_string]; rewrite <- !app_assoc; reflexivity).
    rewrite strip_between by reflexivity.
    cbn [app lit list_ascii_of_string lstrip drop_while].
    rewrite <- !app_assoc. reflexivity. }
  rewrite Estrip. unfold drop_thinking.
  assert (H1 : contains (lit "<think>")
                 ((lit "<think>" ++ r) ++ lit "</think>" ++ rstrip rest) = true).
  { apply contains_iff. exists [], (r ++ lit "</think>" ++ rstrip rest).
    now rewrite <- app_assoc. }
  assert (H2 : contains (lit "</think>")
                 ((lit "<think>" ++ r) ++ lit "</think>" ++ rstrip rest) = true).
  { apply contains_iff. now exists (lit "<think>" ++ r), (rstrip rest). }
  rewrite H1, H2. cbn [andb].
  assert (Hrr : contains (lit "</think>") (rstrip rest) = false).
  { eapply contains_mono; [|exact Hrest].
    destruct (rstrip_decompose rest) as [b [E _]]. exists [], b. exact E. }
  assert (Hparts : split (lit "</think>")
                     ((lit "<think>" ++ r) ++ lit "</think>" ++ rstrip rest)
                   = [lit "<think>" ++ r; rstrip rest]).
  { unfold split.
    destruct (length ((lit "<think>" ++ r) ++ lit "</think>" ++ rstrip rest))
      as [|n] eqn:L.
    { rewrite !length_app in L. simpl in L. lia. }
    cbn [split_fuel].
    rewrite think_close_first by now apply think_open_no_close.
    f_equal. destruct n; cbn [split_fuel]; [reflexivity|].
    now rewrite find_split_absent. }
  rewrite Hparts. cbn [length Nat.ltb Nat.leb nth]. apply strip_rstrip.
Qed.

(** A leading reasoning block is discarded: when neither the reasoning nor
    the text after it holds a closing tag, cleaning the whole is cleaning
    the text after the block. *)
Theorem clean_discards_reasoning (r rest : str) :
  contains (lit "</think>") r = false ->
  contains (lit "</think>") rest = false ->
  _clean_sql_output (lit "<think>" ++ r ++ lit "</think>" ++ rest)
  = _clean_sql_output rest.
Proof.
  intros Hr Hrest. rewrite !clean_by_fences_eq. unfold clean_by_fences.
  cbv zeta. rewrite (drop_thinking_leading r rest Hr Hrest).
  rewrite (drop_thinking_without (strip rest)); [reflexivity|].
  unfold has_think_pair. apply andb_false_iff. right.
  eapply contains_mono; [apply strip_infix | exact Hrest].
Qed.

Lemma clean_discards_reasoning_witness :
  _clean_sql_output
    (lit "<think>" ++ lit "Let me analyze this query..." ++ lit "</think>"
       ++ lit "SELECT name FROM users;")
  = _clean_sql_output (lit "SELECT name FROM users;").
Proof.
  apply (clean_discards_reasoning (lit "Let me analyze this query...")
           (lit "SELECT name FROM users;")); reflexivity.
Defined.

(** *** An unlabelled fence *)

Lemma starts_backticks_head f o s :
  starts f (BACKTICKS ++ o) s = true -> startswith BACKTICKS s = true.
Proof.
  change BACKTICKS with ["`"; "`"; "`"]%char.
  destruct s as [|a [|b [|c s]]]; cbn [app starts startswith];
    rewrite ?FenceFacts.backtick_ok; try discriminate;
    rewrite ?andb_false_r; try discriminate.
  intros H. apply andb_true_iff in H as [Ha H].
  apply andb_true_iff in H as [Hb H]. apply andb_true_iff in H as [Hc _].
  now rewrite Ha, Hb, Hc.
Qed.

Lemma first_fence_step f o c s :
  fence_at f o (c :: s) = None -> first_fence f o (c :: s) = first_fence f o s.
Proof. intros H. cbn [first_fence]. now rewrite H. Qed.

Lemma fence_at_not_started f o s :
  startswith BACKTICKS s = false -> fence_at f (BACKTICKS ++ o) s = None.
Proof.
  intros H. unfold fence_at.
  destruct (starts f (BACKTICKS ++ o) s) eqn:E; [|reflexivity].
  apply starts_backticks_head in E. congruence.
Qed.

(** A prefix without backticks holds no start of a fence. *)
Lemma first_fence_skip_clean f o pre t :
  no_backtick pre = true ->
  first_fence f (BACKTICKS ++ o) (pre ++ t) = first_fence f (BACKTICKS ++ o) t.
Proof.
  induction pre as [|c pre IH]; intros H; [reflexivity|].
  cbn [no_backtick forallb] in H. apply andb_true_iff in H as [Hc H].
  cbn [app]. rewrite first_fence_step; [now apply IH|].
  apply fence_at_not_started.
  change BACKTICKS with ["`"; "`"; "`"]%char. cbn [startswith].
  now destruct (Ascii.eqb "`" c).
Qed.

(** Inside a fence-free text that is followed by a line break, no fence
    starts. *)
Lemma first_fence_skip_body f o y t :
  contains BACKTICKS y = false ->
  first_fence f (BACKTICKS ++ o) (y ++ NL ++ t)
  = first_fence f (BACKTICKS ++ o) (NL ++ t).
Proof.
  induction y as [|c y IH]; intros H; [reflexivity|].
  change ((c :: y) ++ NL ++ t) with (c :: (y ++ NL ++ t)).
  rewrite first_fence_step; [apply IH; eapply contains_tail; eauto|].
  apply fence_at_not_started.
  change (c :: (y ++ NL ++ t)) with ((c :: y) ++ "010"%char :: t).
  apply backticks_blocked; [discriminate | exact H | reflexivity].
Qed.

Lemma fence_at_nothing_after f o s :
  contains BACKTICKS (skipn (length o) s) = false -> fence_at f o s = None.
Proof.
  intros H. unfold fence_at. destruct (starts f o s); [|reflexivity].
  apply fence_body_none. eapply contains_mono; [apply drop_while_infix|exact H].
Qed.

(** After the last fence of a text no labelled fence can be completed. *)
Lemma first_fence_sql_closing f rest :
  contains BACKTICKS rest = false ->
  first_fence f (lit "```sql") (BACKTICKS ++ rest) = None.
Proof.
  intros H.
  assert (Hk : forall k, contains BACKTICKS (skipn k rest) = false)
    by (intros k; eapply contains_mono; [apply skipn_infix | exact H]).
  change (BACKTICKS ++ rest) with ("`"%char :: "`"%char :: "`"%char :: rest).
  rewrite first_fence_step
    by (apply fence_at_nothing_after; exact (Hk 3)).
  rewrite first_fence_step
    by (apply fence_at_nothing_after; exact (Hk 4)).
  rewrite first_fence_step
    by (apply fence_at_nothing_after; exact (Hk 5)).
  now apply first_fence_none.
Qed.

(** An unlabelled fence around a fence-free text holds no match of the
    labelled pattern. *)
Lemma first_fence_sql_unlabelled sql rest :
  contains BACKTICKS sql = false ->
  contains BACKTICKS rest = false ->
  first_fence icase_dotall (lit "```sql")
    (BACKTICKS ++ NL ++ sql ++ NL ++ BACKTICKS ++ rest) = None.
Proof.
  intros Hs Hr.
  change (BACKTICKS ++ NL ++ sql ++ NL ++ BACKTICKS ++ rest)
    with ("`"%char :: "`"%char :: "`"%char :: "010"%char
            :: (sql ++ NL ++ BACKTICKS ++ rest)).
  do 4 (rewrite first_fence_step by reflexivity).
  change (lit "```sql") with (BACKTICKS ++ lit "sql").
  rewrite first_fence_skip_body by exact Hs.
  change (NL ++ BACKTICKS ++ rest) with ("010"%char :: (BACKTICKS ++ rest)).
  rewrite first_fence_step by reflexivity.
  now apply first_fence_sql_closing.
Qed.

(** When the prefix holds no backtick, the SQL text and the suffix hold no
    fence of three backticks and the input does not hold both reasoning
    tags, cleaning the prefix, an unlabelled fence around the SQL text and
    the suffix returns the SQL text, trimmed. *)
Theorem unlabelled_fence_extracted (prefix suffix sql : str) :
  let raw := prefix ++ BACKTICKS ++ NL ++ sql ++ NL ++ BACKTICKS ++ suffix in
  no_backtick prefix = true ->
  contains BACKTICKS sql = false ->
  contains BACKTICKS suffix = false ->
  has_think_pair raw = false ->
  _clean_sql_output raw = strip sql.
Proof.
  intros raw Hp Hs Hx Ht. rewrite clean_by_fences_eq. unfold clean_by_fences.
  cbv zeta.
  assert (Estrip : strip raw
                   = lstrip prefix ++ BACKTICKS
                       ++ NL ++ sql ++ NL ++ BACKTICKS ++ rstrip suffix).
  { unfold raw.
    replace (prefix ++ BACKTICKS ++ NL ++ sql ++ NL ++ BACKTICKS ++ suffix)
      with (prefix ++ "`"%char
              :: (lit "``" ++ NL ++ sql ++ NL ++ lit "``") ++ "`"%char :: suffix)
      by (rewrite <- !app_assoc; reflexivity).
    rewrite strip_between by reflexivity.
    rewrite <- !app_assoc. reflexivity. }
  rewrite drop_thinking_without
    by (eapply has_think_pair_mono; [apply strip_infix | exact Ht]).
  rewrite Estrip.
  assert (Hp' : no_backtick (lstrip prefix) = true).
  { unfold no_backtick in *. rewrite forallb_forall in *. intros c Hc.
    apply Hp. destruct (lstrip_decompose prefix) as [a [E _]].
    rewrite E. apply in_or_app. now right. }
  assert (Hx' : contains BACKTICKS (rstrip suffix) = false).
  { eapply contains_mono; [|exact Hx].
    destruct (rstrip_decompose suffix) as [b [E _]]. exists [], b. exact E. }
  change (lit "```sql") with (BACKTICKS ++ lit "sql").
  rewrite first_fence_skip_clean by exact Hp'.
  change (BACKTICKS ++ lit "sql") with (lit "```sql").
  rewrite first_fence_sql_unlabelled by assumption.
  rewrite <- (app_nil_r BACKTICKS) at 1.
  rewrite first_fence_skip_clean by exact Hp'.
  rewrite app_nil_r.
  destruct (fence_body_trims sql (rstrip suffix) Hs) as [g [Hg Hstrip]].
  rewrite (first_fence_here dotall_only BACKTICKS _ g).
  - exact Hstrip.
  - unfold fence_at. rewrite starts_app, skipn_app_exact. exact Hg.
Qed.

Lemma unlabelled_fence_extracted_witness :
  _clean_sql_output
    ([] ++ BACKTICKS ++ NL ++ lit "SELECT id FROM users WHERE active = 1;"
        ++ NL ++ BACKTICKS ++ [])
  = strip (lit "SELECT id FROM users WHERE active = 1;").
Proof.
  apply (unlabelled_fence_extracted []
           [] (lit "SELECT id FROM users WHERE active = 1;")); reflexivity.
Defined.

(* ================================================================== *)
(** ** Further properties of the validation policies *)

(** A match of the word pattern is a whole-word occurrence. *)
Lemma whole_word_found_inv w s :
  wordy w -> Re.found Re.no_flags (whole_word w) s = true -> whole_word_in w s.
Proof.
  intros Hw H. unfold Re.found, Re.search in H.
  destruct (Re.search_from Re.no_flags (whole_word w) None s) as [m|] eqn:E;
    [|discriminate].
  apply ReFacts.search_from_some in E as [pre [rest [-> Hrun]]].
  change (whole_word w) with (Re.Seq Re.Bnd (Re.Seq (Re.Lit w) Re.Bnd)) in Hrun.
  cbn [Re.run] in Hrun.
  destruct (Re.boundary (prev_of None pre) rest) eqn:B1; [|discriminate].
  rewrite FenceFacts.run_Lit_starts in Hrun.
  destruct (starts Re.no_flags w rest) eqn:S; [|discriminate].
  rewrite FenceFacts.starts_plain in S by reflexivity.
  apply startswith_iff in S as [post ->].
  rewrite skipn_app_exact in Hrun.
  replace (firstn (length w) (w ++ post)) with w in Hrun
    by (rewrite firstn_app, Nat.sub_diag, firstn_all; simpl;
        now rewrite app_nil_r).
  destruct (Re.boundary (prev_of (prev_of None pre) w) post) eqn:B2;
    [|discriminate].
  exists pre, post. split; [reflexivity|]. split.
  - unfold Re.boundary in B1. rewrite (wordy_head w post Hw) in B1.
    unfold last_char. now destruct (Re.word_at (prev_of None pre)).
  - unfold Re.boundary in B2. rewrite (wordy_last w _ Hw) in B2.
    now destruct (Re.word_at (hd_error post)).
Qed.

Lemma dangerous_wordy w : In w dangerous -> wordy w.
Proof. intros H. now apply mutating_keywords_wordy, dangerous_sub. Qed.

Lemma generated_policy_iff (sql : str) :
  let sql_lower := strip (lower sql) in
  _validate_generated_sql sql = true
  <-> (startswith SELECT_lower sql_lower = true
       /\ forall w, In w dangerous -> ~ whole_word_in w sql_lower).
Proof.
  intros sql_lower. unfold _validate_generated_sql. fold sql_lower.
  cbv zeta. fold SELECT_lower. split.
  - intros H.
    destruct (startswith SELECT_lower sql_lower); [|discriminate].
    split; [reflexivity|]. cbn [negb] in H.
    destruct (existsb _ dangerous) eqn:E; [discriminate|].
    intros w Hin Hocc.
    assert (Ht : existsb
                   (fun word => Re.found Re.no_flags (whole_word word) sql_lower)
                   dangerous = true).
    { apply existsb_exists. exists w. split; [exact Hin|].
      apply whole_word_found; [now apply dangerous_wordy | exact Hocc]. }
    congruence.
  - intros [Hs Hnone]. rewrite Hs. cbn [negb].
    destruct (existsb _ dangerous) eqn:E; [|reflexivity].
    apply existsb_exists in E as [w [Hin Hf]].
    exfalso. apply (Hnone w Hin).
    apply whole_word_found_inv; [now apply dangerous_wordy | exact Hf].
Qed.

(** The generated-SQL policy accepts a text exactly when its lower-cased,
    trimmed form starts with [select] and holds none of the seven words of
    the policy as a whole word. *)
Theorem generated_policy_exact (sql : str) :
  let sql_lower := strip (lower sql) in
  _validate_generated_sql sql = true
  <-> (startswith SELECT_lower sql_lower = true
       /\ forall w, In w dangerous -> ~ whole_word_in w sql_lower).
Proof. exact (generated_policy_iff sql). Qed.

Lemma direct_first_pattern sql :
  _validate_sql_query sql = true ->
  Re.found icase_dotall (Re.Seqs [Re.Bnd; keyword_alternation; Re.Bnd])
           (strip (lower sql)) = false
  /\ startswith SELECT_lower (strip (lower sql)) = true.
Proof.
  unfold _validate_sql_query. cbv zeta. unfold dangerous_patterns.
  cbn [existsb].
  destruct (Re.found icase_dotall
              (Re.Seqs [Re.Bnd; keyword_alternation; Re.Bnd])
              (strip (lower sql))); [discriminate|].
  cbn [orb]. destruct (_ || _); [discriminate|].
  fold SELECT_lower.
  destruct (startswith SELECT_lower (strip (lower sql))); [auto|discriminate].
Qed.

(** The direct-SQL policy is at least as strict as the generated-SQL
    policy: whatever it accepts, the other accepts too. *)
Theorem direct_implies_generated (sql : str) :
  _validate_sql_query sql = true -> _validate_generated_sql sql = true.
Proof.
  intros H. destruct (direct_first_pattern sql H) as [Hf Hs].
  apply generated_policy_iff. split; [exact Hs|].
  intros w Hin Hocc.
  rewrite (keyword_pattern_found w _ (dangerous_sub w Hin) Hocc) in Hf.
  discriminate.
Qed.

Lemma direct_implies_generated_witness :
  _validate_generated_sql (lit "SELECT * FROM users;") = true.
Proof.
  apply (direct_implies_generated (lit "SELECT * FROM users;")). reflexivity.
Defined.

(** Trimming keeps an occurrence of a text whose first and last characters
    are not whitespace. *)
Lemma strip_keeps_infix c m d s :
  is_space c = false -> is_space d = false ->
  infix (c :: m ++ [d]) s -> infix (c :: m ++ [d]) (strip s).
Proof.
  intros Hc Hd [a [b ->]].
  replace (a ++ (c :: m ++ [d]) ++ b) with (a ++ c :: m ++ d :: b)
    by (cbn [app]; now rewrite <- app_assoc).
  rewrite strip_between by assumption.
  exists (lstrip a), (rstrip b). cbn [app]. now rewrite <- app_assoc.
Qed.

Lemma lower_app a b : lower (a ++ b) = lower a ++ lower b.
Proof. apply map_app. Qed.

Lemma lower_keeps_infix p s : lower p = p -> infix p s -> infix p (lower s).
Proof.
  intros Hp [a [b ->]]. exists (lower a), (lower b).
  now rewrite !lower_app, Hp.
Qed.

Lemma found_literal f p s : infix p s -> Re.found f (Re.Lit p) s = true.
Proof.
  intros [a [b ->]]. apply ReFacts.found_at. rewrite ReFacts.run_Lit.
  discriminate.
Qed.

Lemma direct_rejects_found sql pattern :
  In pattern dangerous_patterns ->
  Re.found icase_dotall pattern (strip (lower sql)) = true ->
  _validate_sql_query sql = false.
Proof.
  intros Hin Hf. unfold _validate_sql_query. cbv zeta.
  replace (existsb _ dangerous_patterns) with true; [reflexivity|].
  symmetry. apply existsb_exists. now exists pattern.
Qed.

(** A text that holds the line-comment marker [--] anywhere is rejected
    by the direct-SQL policy. *)
Theorem direct_rejects_line_comment (sql : str) :
  infix (lit "--") sql -> _validate_sql_query sql = false.
Proof.
  intros H. apply direct_rejects_found with (pattern := Re.Lit (lit "--")).
  - simpl. tauto.
  - apply found_literal.
    apply (strip_keeps_infix "-" [] "-"); [reflexivity | reflexivity|].
    now apply lower_keeps_infix.
Qed.

Lemma direct_rejects_line_comment_witness :
  _validate_sql_query (lit "SELECT * FROM users -- all of them") = false.
Proof.
  apply (direct_rejects_line_comment (lit "SELECT * FROM users -- all of them")).
  exists (lit "SELECT * FROM users "), (lit " all of them"). reflexivity.
Defined.

(** A lazy run of any characters reaches every later position. *)
Lemma star_lazy_reaches f g k p m rest :
  Re.dotall f = true ->
  k g (prev_of p m) rest <> None ->
  Re.star_lazy f Re.Dot g k p (m ++ rest) <> None.
Proof.
  intros Hf. revert p. induction m as [|c m IH]; intros p Hk.
  - cbn [app prev_of fold_left] in *.
    destruct rest; cbn [Re.star_lazy]; destruct (k g p _); congruence.
  - cbn [app Re.star_lazy].
    destruct (k g p (c :: m ++ rest)); [discriminate|].
    cbn [Re.atom_ok]. rewrite Hf. cbn [orb]. apply IH. exact Hk.
Qed.

(** A text that holds a block comment, opened by [/*] and closed later by
    [*/], is rejected by the direct-SQL policy. *)
Theorem direct_rejects_block_comment (sql inside : str) :
  infix (lit "/*" ++ inside ++ lit "*/") sql ->
  _validate_sql_query sql = false.
Proof.
  intros H.
  apply direct_rejects_found
    with (pattern := Re.Seqs [Re.Lit (lit "/*"); Re.StarLazy Re.Dot;
                              Re.Lit (lit "*/")]).
  - simpl. tauto.
  - assert (Hl : infix (lit "/*" ++ lower inside ++ lit "*/") (lower sql)).
    { destruct H as [a [b ->]]. exists (lower a), (lower b).
      now rewrite !lower_app. }
    assert (Hs : infix (lit "/*" ++ lower inside ++ lit "*/")
                       (strip (lower sql))).
    { replace (lit "/*" ++ lower inside ++ lit "*/")
        with ("/"%char :: (lit "*" ++ lower inside ++ lit "*") ++ ["/"%char])
        in * by (cbn [app lit list_ascii_of_string];
                 rewrite <- !app_assoc; reflexivity).
      now apply strip_keeps_infix. }
    destruct Hs as [a [b Hs]]. rewrite Hs.
    apply ReFacts.found_at.
    change (Re.Seqs [Re.Lit (lit "/*"); Re.StarLazy Re.Dot; Re.Lit (lit "*/")])
      with (Re.Seq (Re.Lit (lit "/*"))
                   (Re.Seq (Re.StarLazy Re.Dot) (Re.Lit (lit "*/")))).
    cbn [Re.run]. rewrite <- !app_assoc. rewrite ReFacts.run_Lit.
    apply star_lazy_reaches; [reflexivity|].
    rewrite ReFacts.run_Lit. discriminate.
Qed.

Lemma direct_rejects_block_comment_witness :
  _validate_sql_query (lit "SELECT a /* hidden */ FROM t") = false.
Proof.
  apply (direct_rejects_block_comment (lit "SELECT a /* hidden */ FROM t")
           (lit " hidden ")).
  exists (lit "SELECT a "), (lit " FROM t"). reflexivity.
Defined.

(* ================================================================== *)
(** ** Further properties of [SQLChainManager] *)

(** The outcome of [_get_schema_info] is a schema or a [RuntimeError]. *)
Lemma get_schema_info_raises w t st e st1 :
  _get_schema_info w t st = (Raise e, st1) ->
  exists e0, svc_get_table_info w = Raise e0
             /\ needs_refresh (fst st) t = true
             /\ e = runtime_error (lit "Failed to retrieve schema info: "
                                     ++ message e0)
             /\ st1 = (fst st, snd st ++ [Introspect]).
Proof.
  intros H. destruct (needs_refresh (fst st) t) eqn:Hr.
  - destruct (svc_get_table_info w) as [schema|e0] eqn:Hs.
    + rewrite (get_schema_info_refresh w t st schema Hr Hs) in H. discriminate.
    + rewrite (get_schema_info_failure w t st e0 Hr Hs) in H.
      inversion H; subst. exists e0. auto.
  - destruct (get_schema_info_cached w t st Hr) as [schema [_ E]].
    rewrite E in H. discriminate.
Qed.

(** The three ways [natural_language_to_sql] can go once the schema is at
    hand. *)
Lemma natural_language_to_sql_after_schema w t q st st1 schema :
  _get_schema_info w t st = (Ok schema, st1) ->
  let st2 := (fst st1, snd st1 ++ [Generate schema q]) in
  natural_language_to_sql w t q st
  = match chain_invoke w schema q with
    | Raise e =>
        (Raise (runtime_error (lit "Failed to generate SQL query: "
                                 ++ message e)), st2)
    | Ok raw =>
        if _validate_generated_sql (_clean_sql_output raw)
        then (Ok (_clean_sql_output raw), st2)
        else (Raise (runtime_error
                       (lit "Failed to generate SQL query: "
                          ++ lit "Generated SQL failed validation")), st2)
    end.
Proof.
  intros Hs st2. unfold natural_language_to_sql, try_except, bind.
  rewrite Hs. unfold tell, lift. cbn [fst snd].
  destruct (chain_invoke w schema q) as [raw|e]; [|reflexivity].
  destruct (_validate_generated_sql (_clean_sql_output raw)); reflexivity.
Qed.

Lemma natural_language_to_sql_no_schema w t q st e st1 :
  _get_schema_info w t st = (Raise e, st1) ->
  natural_language_to_sql w t q st
  = (Raise (runtime_error (lit "Failed to generate SQL query: " ++ message e)),
     st1).
Proof.
  intros Hs. unfold natural_language_to_sql, try_except, bind.
  now rewrite Hs.
Qed.

Lemma natural_language_to_sql_ok (w : collaborators) (t : Q) (q : str)
        (st st' : state) (sql : str) :
  natural_language_to_sql w t q st = (Ok sql, st') ->
  _validate_generated_sql sql = true
  /\ strip sql = sql
  /\ exists schema raw,
       chain_invoke w schema q = Ok raw
       /\ sql = _clean_sql_output raw
       /\ count_events is_generate (snd st')
          = count_events is_generate (snd st) + 1.
Proof.
  intros H.
  destruct (_get_schema_info w t st) as [[schema|e] st1] eqn:Hs.
  - rewrite (natural_language_to_sql_after_schema w t q st st1 schema Hs) in H.
    cbv zeta in H.
    destruct (chain_invoke w schema q) as [raw|e] eqn:Hc; [|discriminate].
    destruct (_validate_generated_sql (_clean_sql_output raw)) eqn:Hv;
      [|discriminate].
    inversion H; subst. split; [exact Hv|]. split; [apply clean_output_stripped|].
    exists schema, raw. repeat split; try assumption.
    cbn [snd].
    now destruct (rejected_generation_counts w t q st st1 schema Hs).
  - rewrite (natural_language_to_sql_no_schema w t q st e st1 Hs) in H.
    discriminate.
Qed.

(** Whatever [natural_language_to_sql] returns has passed the
    generated-SQL policy, is trimmed, and is the cleaned answer of the one
    generation call it made. *)
Theorem returned_sql_is_vetted (w : collaborators) (t : Q) (q : str)
        (st st' : state) (sql : str) :
  natural_language_to_sql w t q st = (Ok sql, st') ->
  _validate_generated_sql sql = true
  /\ strip sql = sql
  /\ exists schema raw,
       chain_invoke w schema q = Ok raw
       /\ sql = _clean_sql_output raw
       /\ count_events is_generate (snd st')
          = count_events is_generate (snd st) + 1.
Proof. exact (natural_language_to_sql_ok w t q st st' sql). Qed.

Lemma returned_sql_is_vetted_witness :
  _validate_generated_sql (lit "SELECT * FROM users;") = true
  /\ strip (lit "SELECT * FROM users;") = lit "SELECT * FROM users;".
Proof.
  destruct (returned_sql_is_vetted
              (with_service demo_service fenced_generator) (0 # 1)
              (lit "Show me all users") (new_manager, [])
              ({| _cached_schema := Some (get_table_info demo_service);
                  _schema_cache_time := Some (0 # 1)%Q |},
               [Introspect;
                Generate (get_table_info demo_service) (lit "Show me all users")])
              (lit "SELECT * FROM users;") eq_refl) as [H1 [H2 _]].
  split; assumption.
Defined.

Lemma raise_pair_inv {A S : Type} (a b : exn) (s1 s2 : S) :
  (@Raise A a, s1) = (Raise b, s2) -> b = a.
Proof. congruence. Qed.

(** Every failure of [natural_language_to_sql] is a [RuntimeError] whose
    message starts with [Failed to generate SQL query: ]. *)
Theorem generation_failure_shape (w : collaborators) (t : Q) (q : str)
        (st st' : state) (e : exn) :
  natural_language_to_sql w t q st = (Raise e, st') ->
  exn_class_of e = RuntimeError
  /\ startswith (lit "Failed to generate SQL query: ") (message e) = true.
Proof.
  intros H.
  destruct (_get_schema_info w t st) as [[schema|e0] st1] eqn:Hs.
  - rewrite (natural_language_to_sql_after_schema w t q st st1 schema Hs) in H.
    cbv zeta in H.
    destruct (chain_invoke w schema q) as [raw|e1].
    + destruct (_validate_generated_sql (_clean_sql_output raw));
        [discriminate|].
      apply raise_pair_inv in H. subst e. split; reflexivity.
    + apply raise_pair_inv in H. subst e.
      split; [reflexivity | cbn [message runtime_error]; apply startswith_app].
  - rewrite (natural_language_to_sql_no_schema w t q st e0 st1 Hs) in H.
    apply raise_pair_inv in H. subst e.
    split; [reflexivity | cbn [message runtime_error]; apply startswith_app].
Qed.

Lemma generation_failure_shape_witness :
  exn_class_of
    (runtime_error (lit "Failed to generate SQL query: " ++ lit "LLM Error"))
  = RuntimeError
  /\ startswith (lit "Failed to generate SQL query: ")
       (message (runtime_error
                   (lit "Failed to generate SQL query: " ++ lit "LLM Error")))
     = true.
Proof.
  apply (generation_failure_shape
           (with_service demo_service failing_generator) (0 # 1)
           (lit "Show users") (new_manager, [])
           ({| _cached_schema := Some (get_table_info demo_service);
               _schema_cache_time := Some (0 # 1)%Q |},
            [Introspect;
             Generate (get_table_info demo_service) (lit "Show users")])).
  reflexivity.
Defined.

(** When the schema lookup raises, [natural_language_to_sql] fails without
    a generation call and leaves the cache as it was. *)
Theorem schema_failure_stops_generation (w : collaborators) (t : Q) (q : str)
        (st : state) (e0 : exn) :
  needs_refresh (fst st) t = true ->
  svc_get_table_info w = Raise e0 ->
  natural_language_to_sql w t q st
  = (Raise (runtime_error
              (lit "Failed to generate SQL query: "
                 ++ lit "Failed to retrieve schema info: " ++ message e0)),
     (fst st, snd st ++ [Introspect]))
  /\ count_events is_generate (snd st ++ [Introspect])
     = count_events is_generate (snd st).
Proof.
  intros Hr Hs. split.
  - rewrite (natural_language_to_sql_no_schema w t q st _ _
               (get_schema_info_failure w t st e0 Hr Hs)).
    reflexivity.
  - rewrite count_events_app. unfold count_events. simpl. lia.
Qed.

Lemma schema_failure_stops_generation_witness :
  natural_language_to_sql raising_collaborators (0 # 1) (lit "Show users")
                          (new_manager, [])
  = (Raise (runtime_error
              (lit "Failed to generate SQL query: "
                 ++ lit "Failed to retrieve schema info: " ++ lit "boom")),
     (new_manager, [Introspect])).
Proof.
  apply (schema_failure_stops_generation raising_collaborators (0 # 1)
           (lit "Show users") (new_manager, [])
           (store_error (lit "boom")) eq_refl eq_refl).
Defined.

(** A generation call that raises leaves the schema it was given in the
    cache: a second request within the time-to-live introspects no more.
    Two requests, one introspection, two generation calls. *)
Theorem failed_generation_keeps_schema (w1 w2 : collaborators) (t1 t2 : Q)
        (q1 q2 schema : str) (st0 : state) (e : exn) :
  needs_refresh (fst st0) t1 = true ->
  svc_get_table_info w1 = Ok schema ->
  chain_invoke w1 schema q1 = Raise e ->
  (t2 - t1 <= _cache_ttl)%Q ->
  let first := natural_language_to_sql w1 t1 q1 st0 in
  let second := natural_language_to_sql w2 t2 q2 (snd first) in
  fst first
  = Raise (runtime_error (lit "Failed to generate SQL query: " ++ message e))
  /\ _cached_schema (fst (snd first)) = Some schema
  /\ snd (snd second)
     = snd st0 ++ [Introspect; Generate schema q1; Generate schema q2].
Proof.
  intros Hr Hs Hc Hle first second.
  assert (E1 : first
               = (Raise (runtime_error
                           (lit "Failed to generate SQL query: " ++ message e)),
                  ({| _cached_schema := Some schema;
                      _schema_cache_time := Some t1 |},
                   (snd st0 ++ [Introspect]) ++ [Generate schema q1]))).
  { unfold first.
    rewrite (natural_language_to_sql_after_schema w1 t1 q1 st0 _ schema
               (get_schema_info_refresh w1 t1 st0 schema Hr Hs)).
    cbv zeta. now rewrite Hc. }
  split; [now rewrite E1|]. split; [now rewrite E1|].
  unfold second. rewrite E1. cbn [snd].
  set (st1 := ({| _cached_schema := Some schema;
                  _schema_cache_time := Some t1 |},
               (snd st0 ++ [Introspect]) ++ [Generate schema q1])).
  destruct (get_schema_info_cached w2 t2 st1) as [s [Hcs Hg]].
  { apply needs_refresh_within with (schema := schema) (t := t1);
      try reflexivity. exact Hle. }
  cbn in Hcs. inversion Hcs; subst s.
  rewrite (natural_language_to_sql_after_schema w2 t2 q2 st1 st1 schema Hg).
  cbv zeta.
  assert (Etr : snd st1 ++ [Generate schema q2]
                = snd st0 ++ [Introspect; Generate schema q1; Generate schema q2]).
  { unfold st1. cbn [snd]. rewrite <- !app_assoc. reflexivity. }
  destruct (chain_invoke w2 schema q2) as [raw|e2].
  - destruct (_validate_generated_sql (_clean_sql_output raw)); exact Etr.
  - exact Etr.
Qed.

Lemma failed_generation_keeps_schema_witness :
  let w := with_service demo_service failing_generator in
  let first := natural_language_to_sql w (0 # 1) (lit "Show users")
                                       (new_manager, []) in
  snd (snd (natural_language_to_sql w (100 # 1) (lit "Show users") (snd first)))
  = [] ++ [Introspect;
           Generate (get_table_info demo_service) (lit "Show users");
           Generate (get_table_info demo_service) (lit "Show users")].
Proof.
  intros w first.
  destruct (failed_generation_keeps_schema w w (0 # 1) (100 # 1)
              (lit "Show users") (lit "Show users")
              (get_table_info demo_service) (new_manager, [])
              (store_error (lit "LLM Error")) eq_refl eq_refl eq_refl)
    as [_ [_ H]].
  - unfold _cache_ttl. lra.
  - exact H.
Defined.

(** [clear_cache] empties the cache whatever its age: the next fetch
    introspects and stores the new schema. *)
Theorem clear_cache_forces_refresh (w : collaborators) (t : Q) (st : state)
        (schema : str) :
  svc_get_table_info w = Ok schema ->
  let cleared := snd (clear_cache st) in
  fst cleared = new_manager
  /\ snd cleared = snd st
  /\ _get_schema_info w t cleared
     = (Ok schema,
        ({| _cached_schema := Some schema; _schema_cache_time := Some t |},
         snd st ++ [Introspect])).
Proof.
  intros Hs cleared. split; [reflexivity|]. split; [reflexivity|].
  now rewrite (get_schema_info_refresh w t cleared schema eq_refl Hs).
Qed.

Lemma clear_cache_forces_refresh_witness :
  let w := with_service demo_service fenced_generator in
  let st : state :=
    ({| _cached_schema := Some (lit "stale");
        _schema_cache_time := Some (10 # 1)%Q |}, []) in
  _get_schema_info w (11 # 1) (snd (clear_cache st))
  = (Ok (get_table_info demo_service),
     ({| _cached_schema := Some (get_table_info demo_service);
         _schema_cache_time := Some (11 # 1)%Q |}, [] ++ [Introspect])).
Proof.
  intros w st.
  destruct (clear_cache_forces_refresh w (11 # 1) st
              (get_table_info demo_service) eq_refl) as [_ [_ H]].
  exact H.
Defined.

(** The time-to-live runs from the last introspection, not from the last
    use: a fetch served from the cache does not renew it. *)
Theorem cache_hit_does_not_renew (w1 w2 w3 : collaborators) (t1 t2 t3 : Q)
        (schema : str) (st0 : state) :
  needs_refresh (fst st0) t1 = true ->
  svc_get_table_info w1 = Ok schema ->
  (t2 - t1 <= _cache_ttl)%Q ->
  (_cache_ttl < t3 - t1)%Q ->
  let first := _get_schema_info w1 t1 st0 in
  let second := _get_schema_info w2 t2 (snd first) in
  let third := _get_schema_info w3 t3 (snd second) in
  snd second = snd first
  /\ snd (snd third) = snd st0 ++ [Introspect; Introspect].
Proof.
  intros Hr Hs Hle Hlt first second third.
  assert (E1 : first = (Ok schema,
                        ({| _cached_schema := Some schema;
                            _schema_cache_time := Some t1 |},
                         snd st0 ++ [Introspect])))
    by (apply get_schema_info_refresh; assumption).
  assert (E2 : second = (Ok schema, snd first)).
  { unfold second.
    destruct (get_schema_info_cached w2 t2 (snd first)) as [s [Hc He]].
    { rewrite E1. cbn [fst snd].
      now apply needs_refresh_within with (schema := schema) (t := t1). }
    rewrite He. rewrite E1 in Hc. cbn in Hc. now inversion Hc. }
  split; [now rewrite E2|].
  assert (Hexp : needs_refresh (fst (snd second)) t3 = true).
  { rewrite E2, E1. cbn [fst snd].
    now apply needs_refresh_expired with (schema := schema) (t := t1). }
  unfold third.
  destruct (svc_get_table_info w3) as [s3|e3] eqn:H3.
  - rewrite (get_schema_info_refresh w3 t3 (snd second) s3 Hexp H3).
    cbn [snd]. rewrite E2, E1. cbn [snd]. now rewrite <- app_assoc.
  - rewrite (get_schema_info_failure w3 t3 (snd second) e3 Hexp H3).
    cbn [snd]. rewrite E2, E1. cbn [snd]. now rewrite <- app_assoc.
Qed.

Lemma cache_hit_does_not_renew_witness :
  let w := with_service demo_service fenced_generator in
  let first := _get_schema_info w (0 # 1) (new_manager, []) in
  let second := _get_schema_info w (200 # 1) (snd first) in
  snd (snd (_get_schema_info w (400 # 1) (snd second)))
  = [] ++ [Introspect; Introspect].
Proof.
  intros w first second.
  destruct (cache_hit_does_not_renew w w w (0 # 1) (200 # 1) (400 # 1)
              (get_table_info demo_service) (new_manager, [])
              eq_refl eq_refl) as [_ H].
  - unfold _cache_ttl. lra.
  - unfold _cache_ttl. lra.
  - exact H.
Defined.

(* ================================================================== *)
(** ** Further properties of [DuckDBService] *)

Lemma get_connection_raises db e :
  _get_connection db = Raise e ->
  exn_class_of e = RuntimeError
  /\ startswith (lit "Failed to initialize DuckDB connection: ") (message e)
     = true.
Proof.
  unfold _get_connection. cbv zeta.
  destruct (connect db) as [conn|e0].
  - destruct (conn_execute conn (lit "SET threads = 1")) as [r1|e1].
    + destruct (conn_execute conn (lit "SET memory_limit = '512MB'")) as [r2|e2];
        [discriminate|].
      intros H. apply (f_equal (fun r => match r with
                                         | Raise x => x
                                         | Ok _ => e
                                         end)) in H. subst e.
      split; [reflexivity | cbn [message runtime_error]; apply startswith_app].
    + intros H. apply (f_equal (fun r => match r with
                                         | Raise x => x
                                         | Ok _ => e
                                         end)) in H. subst e.
      split; [reflexivity | cbn [message runtime_error]; apply startswith_app].
  - intros H. apply (f_equal (fun r => match r with
                                       | Raise x => x
                                       | Ok _ => e
                                       end)) in H. subst e.
    split; [reflexivity | cbn [message runtime_error]; apply startswith_app].
Qed.

(** Every failure of [execute_query] is a [RuntimeError] whose message
    starts with [Failed to execute query: ]; when the store cannot be
    opened, the message goes on with
    [Failed to initialize DuckDB connection: ] and the cause. *)
Theorem execute_query_failure_shape (db : DuckDBService) (query : str)
        (arg : option Z) :
  (forall e, execute_query db query arg = Raise e ->
             exn_class_of e = RuntimeError
             /\ startswith (lit "Failed to execute query: ") (message e) = true)
  /\ (forall e0, connect db = Raise e0 ->
                 execute_query db query arg
                 = Raise (runtime_error
                            (lit "Failed to execute query: "
                               ++ lit "Failed to initialize DuckDB connection: "
                               ++ message e0))).
Proof.
  split.
  - intros e. unfold execute_query. cbv zeta.
    destruct (match _get_connection db with
              | Ok conn => _
              | Raise e1 => Raise e1
              end) as [rows|e1]; [discriminate|].
    intros H. apply (f_equal (fun r => match r with
                                       | Raise x => x
                                       | Ok _ => e
                                       end)) in H. subst e.
    split; [reflexivity | cbn [message runtime_error]; apply startswith_app].
  - intros e0 H. unfold execute_query, _get_connection. cbv zeta.
    rewrite H. reflexivity.
Qed.

Lemma execute_query_failure_shape_witness :
  execute_query unreachable_service (lit "SELECT 1") None
  = Raise (runtime_error
             (lit "Failed to execute query: "
                ++ lit "Failed to initialize DuckDB connection: "
                ++ lit "Connection failed"))
  /\ startswith (lit "Failed to execute query: ")
       (message (runtime_error
                   (lit "Failed to execute query: " ++ lit "Parser Error")))
     = true.
Proof.
  destruct (execute_query_failure_shape unreachable_service (lit "SELECT 1") None)
    as [_ H2].
  destruct (execute_query_failure_shape demo_service (lit "INVALID SQL QUERY") None)
    as [H1 _].
  split.
  - exact (H2 (store_error (lit "Connection failed")) eq_refl).
  - exact (proj2 (H1 _ eq_refl)).
Defined.

Lemma upper_app a b : upper (a ++ b) = upper a ++ upper b.
Proof. apply map_app. Qed.

Lemma limited_query_cases query n :
  limited_query query n = query
  \/ limited_query query n
     = rstrip_char ";" query ++ lit " LIMIT " ++ str_of_int n.
Proof.
  unfold limited_query. cbv zeta.
  destruct (negb (n =? 0)%Z && _ && _ && _); auto.
Qed.

(** Injecting the row limit twice is injecting it once: the text that
    [execute_query] would run is left alone when given again. *)
Theorem limited_query_idempotent (query : str) (n : Z) :
  limited_query (limited_query query n) n = limited_query query n.
Proof.
  destruct (limited_query_cases query n) as [E|E]; rewrite E; [exact E|].
  apply limited_query_keeps. apply contains_iff.
  apply (strip_keeps_infix "L" (lit "IMI") "T"); [reflexivity|reflexivity|].
  rewrite !upper_app.
  exists (upper (rstrip_char ";" query) ++ lit " "),
         (lit " " ++ upper (str_of_int n)).
  rewrite <- !app_assoc. reflexivity.
Qed.

Lemma infix_join sep x xs : In x xs -> infix x (join sep xs).
Proof.
  induction xs as [|y ys IH]; [contradiction|]. intros [->|Hin].
  - destruct ys as [|z zs]; cbn [join]; [exists [], []; now rewrite app_nil_r|].
    now exists [], (sep ++ join sep (z :: zs)).
  - specialize (IH Hin). destruct ys as [|z zs]; [contradiction|].
    cbn [join] in *. destruct IH as [a [b E]].
    exists (y ++ sep ++ a), b. fold (join sep (z :: zs)). rewrite E.
    now rewrite <- !app_assoc.
Qed.

Lemma table_section_head conn t :
  exists tail,
    table_section conn t
    = (lit "Table: " ++ format_value t ++ NL ++ lit "Columns: ") ++ tail.
Proof.
  unfold table_section. cbv zeta.
  destruct (conn_execute conn _) as [columns_df|e].
  - destruct (column_entries columns_df) as [entries|].
    + exists (join (lit ", ") entries). unfold section_ok.
      now rewrite <- !app_assoc.
    + exists (lit "[Error retrieving schema]"). unfold section_error.
      now rewrite <- !app_assoc.
  - exists (lit "[Error retrieving schema]"). unfold section_error.
    now rewrite <- !app_assoc.
Qed.

(** Every table of the listing has its section in the schema text, whether
    its description succeeded or not. *)
Theorem get_table_info_lists_every_table (db : DuckDBService)
        (conn : connection) (tables_df : list row) (names : list value)
        (t : value) :
  _get_connection db = Ok conn ->
  conn_execute conn (lit "SHOW TABLES") = Ok tables_df ->
  column (lit "name") tables_df = Some names ->
  In t names ->
  infix (lit "Table: " ++ format_value t ++ NL ++ lit "Columns: ")
        (get_table_info db).
Proof.
  intros Hconn Hshow Hnames Hin. unfold get_table_info. cbv zeta.
  rewrite Hconn, Hshow.
  destruct tables_df as [|r tables_df].
  { simpl in Hnames. inversion Hnames; subst. contradiction. }
  rewrite Hnames.
  destruct (table_section_head conn t) as [tail E].
  eapply infix_trans; [|apply infix_join, in_map, Hin].
  rewrite E. apply prefix_infix.
Qed.

Lemma get_table_info_lists_every_table_witness :
  infix (lit "Table: " ++ format_value (VText (lit "orders")) ++ NL
           ++ lit "Columns: ")
        (get_table_info demo_service).
Proof.
  apply (get_table_info_lists_every_table demo_service demo_connection
           (tables_frame [lit "users"; lit "orders"; lit "t"])
           [VText (lit "users"); VText (lit "orders"); VText (lit "t")]
           (VText (lit "orders")) eq_refl eq_refl eq_refl).
  simpl. tauto.
Defined.

(* ================================================================== *)
(** ** Properties of the request validators and the handlers *)

Lemma strip_blank v : forallb is_space v = true -> strip v = [].
Proof.
  intros H. unfold strip, lstrip. now rewrite drop_while_all_nil.
Qed.

Lemma strip_length_le v : length (strip v) <= length v.
Proof.
  destruct (strip_decompose v) as [a [b [E _]]].
  rewrite E at 2. rewrite !length_app. lia.
Qed.

(** A value accepted by either request validator is the trimmed input, is
    not empty, has at most 1000 characters, and is accepted unchanged when
    validated again. *)
Theorem validators_accept_trimmed (v q : str) :
  (validate_question v = Ok q ->
   q = strip v /\ q <> [] /\ length q <= 1000 /\ validate_question q = Ok q)
  /\ (validate_message v = Ok q ->
      q = strip v /\ q <> [] /\ length q <= 1000 /\ validate_message q = Ok q).
Proof.
  split.
  - unfold validate_question.
    destruct v as [|c v]; [discriminate|]. cbn [orb].
    destruct (strip (c :: v)) as [|d r] eqn:E; [discriminate|].
    destruct (1000 <? length (d :: r)) eqn:L; [discriminate|].
    intros H. inversion H; subst q. apply Nat.ltb_ge in L.
    repeat split; [discriminate | exact L |].
    assert (Hs : strip (d :: r) = d :: r) by (rewrite <- E; apply strip_idem).
    rewrite Hs. apply Nat.ltb_ge in L. now rewrite L.
  - unfold validate_message.
    destruct v as [|c v]; [discriminate|]. cbn [orb].
    destruct (strip (c :: v)) as [|d r] eqn:E; [discriminate|].
    destruct (1000 <? length (d :: r)) eqn:L; [discriminate|].
    intros H. inversion H; subst q. apply Nat.ltb_ge in L.
    repeat split; [discriminate | exact L |].
    assert (Hs : strip (d :: r) = d :: r) by (rewrite <- E; apply strip_idem).
    rewrite Hs. apply Nat.ltb_ge in L. now rewrite L.
Qed.

Lemma validators_accept_trimmed_witness :
  validate_question (lit "Show me all users")
  = Ok (lit "Show me all users")
  /\ validate_message (lit "Show me all users")
     = Ok (lit "Show me all users").
Proof.
  destruct (validators_accept_trimmed (lit "  Show me all users ")
              (lit "Show me all users")) as [H1 H2].
  destruct (H1 eq_refl) as [_ [_ [_ Hq]]].
  destruct (H2 eq_refl) as [_ [_ [_ Hm]]].
  split; assumption.
Defined.

(** An empty input, or one made of whitespace only, is refused by both
    request validators as empty. *)
Theorem validators_refuse_blank (v : str) :
  forallb is_space v = true ->
  validate_question v = Raise (value_error (lit "Question cannot be empty"))
  /\ validate_message v = Raise (value_error (lit "Message cannot be empty")).
Proof.
  intros H. unfold validate_question, validate_message.
  rewrite (strip_blank v H). now rewrite !orb_true_r.
Qed.

Lemma validators_refuse_blank_witness :
  validate_question (lit "   ")
  = Raise (value_error (lit "Question cannot be empty"))
  /\ validate_message (lit "   ")
     = Raise (value_error (lit "Message cannot be empty")).
Proof. apply (validators_refuse_blank (lit "   ")). reflexivity. Defined.

(** A message is taken as a query exactly when its lower-cased form holds
    one of the keywords as a piece of text; so a keyword in any letter
    case, anywhere in the message, makes it a query. *)
Theorem query_intent_exact (user_message : str) :
  (_is_query_intent user_message = true
   <-> exists keyword, In keyword query_keywords
                       /\ infix keyword (lower user_message))
  /\ (forall pre u post,
         user_message = pre ++ u ++ post -> In (lower u) query_keywords ->
         _is_query_intent user_message = true).
Proof.
  assert (Hiff : _is_query_intent user_message = true
                 <-> exists keyword, In keyword query_keywords
                                     /\ infix keyword (lower user_message)).
  { unfold _is_query_intent. cbv zeta. rewrite existsb_exists.
    split; intros [k [Hin Hk]]; exists k; split; auto;
      now apply contains_iff. }
  split; [exact Hiff|].
  intros pre u post -> Hin. apply Hiff. exists (lower u). split; [exact Hin|].
  exists (lower pre), (lower post). now rewrite !lower_app.
Qed.

Lemma query_intent_exact_witness :
  _is_query_intent (lit "Please SHOW me everything") = true.
Proof.
  destruct (query_intent_exact (lit "Please SHOW me everything")) as [_ H].
  apply (H (lit "Please ") (lit "SHOW") (lit " me everything") eq_refl).
  simpl. tauto.
Defined.

(** A message that is not taken as a query is answered with a text that
    repeats it, without a schema fetch, a generation call or an execution:
    the state is left as it was. *)
Theorem chat_general_makes_no_call (db : DuckDBService)
        (invoke : str -> str -> result str) (t : Q) (user_message : str)
        (st : state) :
  _is_query_intent user_message = false ->
  chat_endpoint db invoke t user_message st
  = (ChatOk {| response := general_reply user_message;
               chat_query := None;
               chat_results := None;
               chat_row_count := None |}, st)
  /\ infix user_message (general_reply user_message).
Proof.
  intros H. split.
  - unfold chat_endpoint. cbv zeta. now rewrite H.
  - unfold general_reply. now eexists _, _.
Qed.

Lemma chat_general_makes_no_call_witness :
  snd (chat_endpoint demo_service fenced_generator (0 # 1)
                     (lit "Hello, how are you?") (new_manager, []))
  = (new_manager, []).
Proof.
  destruct (chat_general_makes_no_call demo_service fenced_generator (0 # 1)
              (lit "Hello, how are you?") (new_manager, []) eq_refl) as [H _].
  now rewrite H.
Defined.





Lemma truncate_rows_bound m rows :
  (0 < m)%Z -> (Z.of_nat (length (truncate_rows (Some m) rows)) <= m)%Z.
Proof.
  intros Hm. unfold truncate_rows.
  replace (m =? 0)%Z with false by (symmetry; apply Z.eqb_neq; lia).
  cbn [negb andb].
  destruct (m <? Z.of_nat (length rows))%Z eqn:E.
  - unfold slice_to.
    replace (0 <=? m)%Z with true by (symmetry; apply Z.leb_le; lia).
    rewrite length_firstn. lia.
  - apply Z.ltb_ge in E. exact E.
Qed.

(** A successful answer of the [/query] handler reports as [row_count] the
    number of rows it carries, and carries at most [max_rows] rows when the
    request gives a positive [max_rows]. *)
Theorem query_endpoint_row_bound (db : DuckDBService)
        (invoke : str -> str -> result str) (t : Q) (payload : QueryRequest)
        (st : state) (sql : str) (results : list row) (row_count : nat) :
  fst (query_endpoint db invoke t payload st)
  = QueryResponse sql results row_count ->
  row_count = length results
  /\ (forall m, request_max_rows payload = Some m -> (0 < m)%Z ->
                (Z.of_nat (length results) <= m)%Z).
Proof.
  unfold query_endpoint. cbv zeta. intros H.
  assert (Hrun : forall (s : str) (st1 : state),
             fst (match execute_query db s None with
                  | Ok results0 =>
                      (QueryResponse s
                         (truncate_rows (request_max_rows payload) results0)
                         (length (truncate_rows (request_max_rows payload)
                                                results0)),
                       (fst st1, snd st1 ++ [Execute s]))
                  | Raise e =>
                      (HTTPException 500
                         (lit "Query execution failed: " ++ message e),
                       (fst st1, snd st1 ++ [Execute s]))
                  end) = QueryResponse sql results row_count ->
             row_count = length results
             /\ (forall m, request_max_rows payload = Some m -> (0 < m)%Z ->
                           (Z.of_nat (length results) <= m)%Z)).
  { intros s st1 Hr. destruct (execute_query db s None) as [rs|e];
      [|discriminate].
    cbn [fst] in Hr. inversion Hr; subst. split; [reflexivity|].
    intros m Hm Hpos. rewrite Hm. now apply truncate_rows_bound. }
  destruct (use_nlq payload).
  - destruct (natural_language_to_sql (with_service db invoke) t
                (question payload) st) as [[s|e] st1]; [|discriminate].
    exact (Hrun s st1 H).
  - destruct (negb (_validate_sql_query (question payload))); [discriminate|].
    exact (Hrun _ st H).
Qed.

Lemma query_endpoint_row_bound_witness :
  (Z.of_nat (length (firstn 2 (numbered_rows 100))) <= 2)%Z.
Proof.
  destruct (query_endpoint_row_bound demo_service fenced_generator (0 # 1)
              {| question := lit "SELECT * FROM t";
                 use_nlq := false;
                 request_max_rows := Some 2%Z |}
              (new_manager, []) (lit "SELECT * FROM t")
              (firstn 2 (numbered_rows 100)) 2 eq_refl) as [_ H].
  apply (H 2%Z eq_refl). reflexivity.
Defined.

(** A statement given directly that holds a mutating keyword as a whole
    word is answered with status 400, and nothing is called: no schema
    fetch, no generation, no execution. *)
Theorem direct_mutating_statement_refused (db : DuckDBService)
        (invoke : str -> str -> result str) (t : Q) (payload : QueryRequest)
        (st : state) (w : str) :
  use_nlq payload = false ->
  In w mutating_keywords ->
  occurs_as_word w (question payload) ->
  query_endpoint db invoke t payload st
  = (HTTPException 400
       (lit "Invalid SQL query. Only safe SELECT statements are allowed for direct queries."),
     st).
Proof.
  intros Hn Hin Hocc. apply query_endpoint_rejected_direct; [exact Hn|].
  now apply direct_rejects_keyword with (w := w).
Qed.

Lemma direct_mutating_statement_refused_witness :
  query_endpoint demo_service fenced_generator (0 # 1)
    {| question := lit "DROP TABLE users;"; use_nlq := false;
       request_max_rows := Some 1000%Z |} (new_manager, [])
  = (HTTPException 400
       (lit "Invalid SQL query. Only safe SELECT statements are allowed for direct queries."),
     (new_manager, [])).
Proof.
  apply (direct_mutating_statement_refused demo_service fenced_generator
           (0 # 1)
           {| question := lit "DROP TABLE users;"; use_nlq := false;
              request_max_rows := Some 1000%Z |} (new_manager, [])
           (lit "drop")).
  - reflexivity.
  - simpl. tauto.
  - exists [], (lit "DROP"), (lit " TABLE users;"). repeat split.
Defined.
